(** * MongoPortable: the collection engine (Collection.js, MongoPortable.js)

    A shallow embedding of the in-memory document store: documents are
    trees of JavaScript values, a collection owns the ordered array [docs]
    and the object [doc_indexes] (identifier string -> position), and the
    operations [insert], [find], [findOne], [update], [remove] and [save]
    run in a small state-and-exception monad that also records every call
    [_emit] makes on an observer store.  The database object of
    MongoPortable.js comes with its registry of collections
    ([collection], [dropCollection], [dropDatabase], [addStore]) and the
    checks of names.

    Left out: [backup] and [restore], which call an [emit] the collection
    does not define, and with them [backups] and [removeBackup];
    [renameCollection], which renames own fields of the database object;
    [collections] and [collectionNames]; the index methods, which are not
    implemented.

    Conventions of the embedding.
    - Numbers are the integers ([Z]); fractional values, NaN and the
      infinities of IEEE-754 doubles are outside the model.
    - An object is the list of its own enumerable properties in [for-in]
      order.  Inherited properties (those of [Object.prototype]) and the
      reordering of integer-like keys are not modelled.
    - Values are immutable terms, so [_.cloneDeep] is the identity and a
      reference into a document ([_findModTarget]'s result) is a lens: the
      value referred to, together with the function that puts a new value
      in its place.
    - Callbacks and the [chain] option only change what is handed back to
      the caller and are left out. *)

From Stdlib Require Import ZArith Ascii String.
From stdpp Require Import base strings list gmap pretty.

Open Scope string_scope.
Open Scope list_scope.

(** ** Values *)

(** Modelled from the spec: ObjectId.js is not part of the sources at hand.
    The spec describes an identifier as an opaque 12-octet value with a
    derivable creation instant [generation_time] (seconds since epoch); its
    string form is the identifier-string used as key of [doc_indexes]. *)
Record ObjectId := mkObjectId { oid_hex : string; generationTime : Z }.

#[local] Unset Elimination Schemes.
Inductive value :=
| VUndef
| VNull
| VBool (b : bool)
| VNum (n : Z)
| VStr (s : string)
| VOid (o : ObjectId)
| VArr (elems : list value)
| VObj (fields : list (string * value)).
#[local] Set Elimination Schemes.

Inductive jstype := TyUndefined | TyObject | TyBoolean | TyNumber | TyString.

Definition typeof (v : value) : jstype :=
  match v with
  | VUndef => TyUndefined
  | VBool _ => TyBoolean
  | VNum _ => TyNumber
  | VStr _ => TyString
  | VNull | VOid _ | VArr _ | VObj _ => TyObject
  end.

Definition is_object_type (v : value) : bool :=
  match typeof v with TyObject => true | _ => false end.

Definition is_number (v : value) : bool :=
  match v with VNum _ => true | _ => false end.

Definition is_array (v : value) : bool :=
  match v with VArr _ => true | _ => false end.

(** [_.isNil] *)
Definition isNil (v : value) : bool :=
  match v with VUndef | VNull => true | _ => false end.

(** [_.isPlainObject] *)
Definition isPlainObject (v : value) : bool :=
  match v with VObj _ => true | _ => false end.

(** JavaScript truthiness, as used by [||] and [!]. *)
Definition truthy (v : value) : bool :=
  match v with
  | VUndef | VNull | VBool false => false
  | VNum n => negb (n =? 0)%Z
  | VStr s => negb (String.eqb s "")
  | _ => true
  end.

(** [_.cloneDeep]: values are immutable terms. *)
Definition cloneDeep (v : value) : value := v.

(** ** Errors *)

Inductive error :=
| Err (msg : string)                      (* throw new Error(msg) *)
| ErrListValue (field : string) (v : value)
    (* "can't modify field '<field>' of list value " + JSON.stringify(v) *)
| TypeError (what : string).              (* raised by the JavaScript runtime *)

Inductive result (A : Type) :=
| Ok (a : A)
| Throw (e : error).
Arguments Ok {A} a.
Arguments Throw {A} e.

Definition rbind {A B} (r : result A) (f : A -> result B) : result B :=
  match r with
  | Ok a => f a
  | Throw e => Throw e
  end.

#[global] Instance result_ret : MRet result := fun _ a => Ok a.
#[global] Instance result_bind : MBind result := fun _ _ f r => rbind r f.

(** ** Strings: digits, key paths *)

Definition is_digit (a : ascii) : bool :=
  let n := nat_of_ascii a in (48 <=? n)%nat && (n <=? 57)%nat.

Fixpoint all_digits (s : string) : bool :=
  match s with
  | EmptyString => true
  | String a s' => is_digit a && all_digits s'
  end.

(** [/^[0-9]+$/.test(s)] *)
Definition numeric (s : string) : bool :=
  negb (String.eqb s "") && all_digits s.

(** [s.replace(/\D/g, '')] *)
Fixpoint strip_non_digits (s : string) : string :=
  match s with
  | EmptyString => EmptyString
  | String a s' =>
      if is_digit a then String a (strip_non_digits s') else strip_non_digits s'
  end.

Fixpoint digits_value (acc : nat) (s : string) : nat :=
  match s with
  | EmptyString => acc
  | String a s' => digits_value (10 * acc + (nat_of_ascii a - 48)) s'
  end.

(** [_.toNumber] on a string of digits *)
Definition toNumber (s : string) : nat := digits_value 0 s.

(** [s.split(c)]: never empty *)
Fixpoint split_on (c : ascii) (s : string) : list string :=
  match s with
  | EmptyString => [EmptyString]
  | String a s' =>
      if Ascii.eqb a c then EmptyString :: split_on c s'
      else match split_on c s' with
           | [] => [String a EmptyString]
           | w :: ws => String a w :: ws
           end
  end.

(** [key.substr(0, 1) === '$'] *)
Definition is_modifier_key (k : string) : bool :=
  match k with
  | String a _ => Ascii.eqb a "$"%char
  | EmptyString => false
  end.

(** [/\./g.test(key)] *)
Fixpoint has_dot (k : string) : bool :=
  match k with
  | EmptyString => false
  | String a k' => Ascii.eqb a "."%char || has_dot k'
  end.

(** ** Property access *)

(** A segment of a key path: a string from [split], or the number
    [_findModTarget] writes back into [keyparts]. *)
Inductive key := KStr (s : string) | KNum (n : nat).

Definition key_string (k : key) : string :=
  match k with
  | KStr s => s
  | KNum n => pretty n
  end.

(** The array index a property key denotes: a number, or the canonical
    decimal string of one. *)
Definition array_index (k : key) : option nat :=
  match k with
  | KNum n => Some n
  | KStr s =>
      if numeric s && String.eqb (pretty (toNumber s)) s then Some (toNumber s)
      else None
  end.

Fixpoint obj_get (fs : list (string * value)) (k : string) : option value :=
  match fs with
  | [] => None
  | (k', v) :: fs' => if String.eqb k' k then Some v else obj_get fs' k
  end.

Fixpoint obj_set (fs : list (string * value)) (k : string) (x : value)
  : list (string * value) :=
  match fs with
  | [] => [(k, x)]
  | (k', v) :: fs' =>
      if String.eqb k' k then (k', x) :: fs' else (k', v) :: obj_set fs' k x
  end.

Fixpoint obj_del (fs : list (string * value)) (k : string)
  : list (string * value) :=
  match fs with
  | [] => []
  | (k', v) :: fs' =>
      if String.eqb k' k then obj_del fs' k else (k', v) :: obj_del fs' k
  end.

(** [arr[i] = x]: writing past the end leaves holes, which read as
    [undefined]. *)
Definition arr_set (l : list value) (i : nat) (x : value) : list value :=
  if (i <? length l)%nat then <[i := x]> l
  else l ++ replicate (i - length l) VUndef ++ [x].

Definition arr_get (l : list value) (i : nat) : value :=
  default VUndef (l !! i).

Fixpoint string_chars (s : string) : list value :=
  match s with
  | EmptyString => []
  | String a s' => VStr (String a EmptyString) :: string_chars s'
  end.

(** [k in v] *)
Definition has_in (k : key) (v : value) : result bool :=
  match v with
  | VObj fs => Ok (bool_decide (is_Some (obj_get fs (key_string k))))
  | VArr l =>
      Ok (match array_index k with
          | Some i => (i <? length l)%nat
          | None => String.eqb (key_string k) "length"
          end)
  | VOid _ => Ok false
  | _ => Throw (TypeError "cannot use 'in' operator on a non-object")
  end.

(** [v[k]] *)
Definition get_prop (v : value) (k : key) : result value :=
  match v with
  | VObj fs => Ok (default VUndef (obj_get fs (key_string k)))
  | VArr l =>
      Ok (match array_index k with
          | Some i => arr_get l i
          | None => if String.eqb (key_string k) "length"
                    then VNum (Z.of_nat (length l)) else VUndef
          end)
  | VStr s =>
      Ok (match array_index k with
          | Some i => arr_get (string_chars s) i
          | None => if String.eqb (key_string k) "length"
                    then VNum (Z.of_nat (String.length s)) else VUndef
          end)
  | VUndef | VNull => Throw (TypeError "cannot read property of undefined or null")
  | _ => Ok VUndef
  end.

(** [v[k] = x].  Outside strict mode a write to a property of a primitive
    is silently dropped; named properties of arrays and the properties of
    an ObjectId instance are not tracked. *)
Definition set_prop (v : value) (k : key) (x : value) : result value :=
  match v with
  | VObj fs => Ok (VObj (obj_set fs (key_string k) x))
  | VArr l =>
      Ok (match array_index k with
          | Some i => VArr (arr_set l i x)
          | None => VArr l
          end)
  | VUndef | VNull => Throw (TypeError "cannot set property of undefined or null")
  | _ => Ok v
  end.

(** [delete v[k]] *)
Definition delete_prop (v : value) (k : key) : result value :=
  match v with
  | VObj fs => Ok (VObj (obj_del fs (key_string k)))
  | VArr l =>
      Ok (match array_index k with
          | Some i => if (i <? length l)%nat then VArr (<[i := VUndef]> l) else VArr l
          | None => VArr l
          end)
  | VUndef | VNull => Throw (TypeError "cannot convert undefined or null to object")
  | _ => Ok v
  end.

(** The keys [for (k in v)] visits. *)
Definition enum_keys (v : value) : list string :=
  match v with
  | VObj fs => fs.*1
  | VArr l => pretty <$> seq 0 (length l)
  | VStr s => pretty <$> seq 0 (String.length s)
  | _ => []
  end.

(** The elements [_.forEach(v, fn)] visits. *)
Definition forEach_values (v : value) : list value :=
  match v with
  | VArr l => l
  | VObj fs => fs.*2
  | VStr s => string_chars s
  | _ => []
  end.

(** The string a value becomes when it is used as a property key. *)
Fixpoint to_property_key (v : value) : string :=
  match v with
  | VUndef => "undefined"
  | VNull => "null"
  | VBool true => "true"
  | VBool false => "false"
  | VNum n => pretty n
  | VStr s => s
  | VOid o => oid_hex o
  | VArr l =>
      (fix join (l : list value) : string :=
         match l with
         | [] => ""
         | x :: r =>
             let sx := match x with
                       | VUndef | VNull => ""
                       | _ => to_property_key x
                       end in
             match r with
             | [] => sx
             | _ => sx +:+ "," +:+ join r
             end
         end) l
  | VObj _ => "[object Object]"
  end.

(** [_.toString] *)
Definition lodash_toString (v : value) : string :=
  match v with
  | VUndef | VNull => ""
  | _ => to_property_key v
  end.

(** ** Collaborators that are not part of the sources at hand

    Collection.js calls into Selector.js, ObjectId.js and the observer
    stores registered on the database.  They are parameters of the
    development. *)

(** An observer store: the event names it has a handler for, and whether
    it has the catch-all handler [all]. *)
Record Store := mkStore { store_handlers : list string; store_all : bool }.

Record Runtime := mkRuntime {
  equal : value -> value -> bool;                      (* Selector._f._equal *)
  _compileSelector : value -> result (value -> bool);  (* Selector._compileSelector *)
  _stores : list Store;                                (* MongoPortable#_stores *)
  newObjectId : nat -> ObjectId                        (* the n-th [new ObjectId()] *)
}.

(** ** Path resolution: [Collection._findModTarget] *)

(** The result of [_findModTarget]: the value it returns ([undefined],
    [null] or the container to operate on), the document once that
    container is replaced by [x] ([put x]; the intermediate structure the
    walk created is part of it), and [keyparts] as the call leaves it. *)
Record ModTarget := mkTarget {
  target : value;
  put : value -> value;
  keyparts_out : list key
}.

(** The node [doc] with its property [k] replaced by [c]. *)
Definition replace_child (doc : value) (k : key) (c : value) : value :=
  match set_prop doc k c with
  | Ok d => d
  | Throw _ => doc
  end.

Definition is_nil_list {A} (l : list A) : bool :=
  match l with [] => true | _ => false end.

Fixpoint _findModTarget (doc : value) (keyparts : list string)
    (no_create forbid_array : bool) : result ModTarget :=
  match keyparts with
  | [] => Ok (mkTarget VUndef (fun _ => doc) [])
  | keypart :: rest =>
      let last := is_nil_list rest in
      stop ← (if no_create then
                  if is_object_type doc
                  then (b ← has_in (KStr keypart) doc; Ok (negb b))
                  else Ok true
                else Ok false);
       if (stop : bool) then Ok (mkTarget VUndef (fun _ => doc) (KStr <$> keyparts))
       else
         match doc with
         | VArr l =>
             if forbid_array
             then Ok (mkTarget VNull (fun _ => doc) (KStr <$> keyparts))
             else if negb (numeric keypart)
             then Throw (Err ("can't append to array using string field name ["
                              +:+ keypart +:+ "]"))
             else
               let k := toNumber keypart in
               let l1 := l ++ replicate (k - length l) VNull in
               if last then Ok (mkTarget (VArr l1) (fun x => x) [KNum k])
               else
                 l2 ← (if (length l1 =? k)%nat then Ok (l1 ++ [VObj []])
                        else if is_object_type (arr_get l1 k) then Ok l1
                        else Throw (ErrListValue (hd "" rest) (arr_get l1 k)));
                 r ← _findModTarget (arr_get l2 k) rest no_create forbid_array;
                 Ok (mkTarget (target r)
                       (fun x => VArr (<[k := put r x]> l2))
                       (KStr keypart :: keyparts_out r))
         | _ =>
             doc1 ← (if last then Ok doc
                      else b ← has_in (KStr keypart) doc;
                           if (b : bool) then Ok doc
                           else set_prop doc (KStr keypart) (VObj []));
             if last then Ok (mkTarget doc1 (fun x => x) [KStr keypart])
             else
               child ← get_prop doc1 (KStr keypart);
               r ← _findModTarget child rest no_create forbid_array;
               Ok (mkTarget (target r)
                     (fun x => replace_child doc1 (KStr keypart) (put r x))
                     (KStr keypart :: keyparts_out r))
         end
  end.

Definition _noCreateModifiers (key : string) : bool :=
  bool_decide (key ∈ ["$unset"; "$pop"; "$rename"; "$pull"; "$pullAll"]).

(** ** The update modifiers: [_modifiers] *)

Section Engine.

Variable rt : Runtime.

(** [keyparts.pop()] *)
Definition pop_field (keyparts : list key) : key :=
  List.last keyparts (KStr "undefined").

(** [$inc] *)
Definition mod_inc (target : value) (field : key) (arg : value) : result value :=
  match arg with
  | VNum n =>
      b ← has_in field target;
      if (b : bool) then
        cur ← get_prop target field;
        match cur with
        | VNum m => set_prop target field (VNum (m + n))
        | _ => Throw (Err "Cannot apply $inc modifier to non-number")
        end
      else set_prop target field arg
  | _ => Throw (Err "Modifier $inc allowed for numbers only")
  end.

(** [$set] *)
Definition mod_set (target : value) (field : key) (arg : value) : result value :=
  set_prop target field (cloneDeep arg).

(** [$unset] *)
Definition mod_unset (target : value) (field : key) (arg : value) : result value :=
  match target with
  | VUndef => Ok target
  | VArr _ =>
      b ← has_in field target;
      if (b : bool) then set_prop target field VNull else Ok target
  | _ => delete_prop target field
  end.

(** [$push] *)
Definition mod_push (target : value) (field : key) (arg : value) : result value :=
  x ← get_prop target field;
  match x with
  | VUndef => set_prop target field (VArr [arg])
  | VArr l => set_prop target field (VArr (l ++ [cloneDeep arg]))
  | _ => Throw (Err "Cannot apply $push modifier to non-array")
  end.

(** [$pushAll] *)
Definition mod_pushAll (target : value) (field : key) (arg : value) : result value :=
  match arg with
  | VArr args =>
      x ← get_prop target field;
      match x with
      | VUndef => set_prop target field arg
      | VArr l => set_prop target field (VArr (l ++ args))
      | _ => Throw (Err "Cannot apply $pushAll modifier to non-array")
      end
  | _ => Throw (Err "Modifier $pushAll/pullAll allowed for arrays only")
  end.

(** The first key a [for-in] over [arg] visits is ["$each"]. *)
Definition is_each (arg : value) : bool :=
  is_object_type arg &&
  match enum_keys arg with
  | k :: _ => String.eqb k "$each"
  | [] => false
  end.

(** One round of the [_.forEach] of [$addToSet]: [v] is pushed unless an
    element of [x] already equals it. *)
Definition add_missing (x : list value) (v : value) : list value :=
  if existsb (equal rt v) x then x else x ++ [v].

(** [$addToSet] *)
Definition mod_addToSet (target : value) (field : key) (arg : value) : result value :=
  x ← get_prop target field;
  match x with
  | VUndef => set_prop target field (VArr [arg])
  | VArr l =>
      values ← (if is_each arg
                then each ← get_prop arg (KStr "$each"); Ok (forEach_values each)
                else Ok [arg]);
      set_prop target field (VArr (foldl add_missing l values))
  | _ => Throw (Err "Cannot apply $addToSet modifier to non-array")
  end.

(** [$pop] *)
Definition mod_pop (target : value) (field : key) (arg : value) : result value :=
  match target with
  | VUndef => Ok target
  | _ =>
      x ← get_prop target field;
      match x with
      | VUndef => Ok target
      | VArr l =>
          let negative := match arg with VNum n => (n <? 0)%Z | _ => false end in
          set_prop target field
            (VArr (if negative then drop 1 l else take (length l - 1) l))
      | _ => Throw (Err "Cannot apply $pop modifier to non-array")
      end
  end.

(** [$pull] *)
Definition mod_pull (target : value) (field : key) (arg : value) : result value :=
  match target with
  | VUndef => Ok target
  | _ =>
      x ← get_prop target field;
      match x with
      | VUndef => Ok target
      | VArr l =>
          if is_object_type arg && negb (is_array arg) then
            matches ← _compileSelector rt arg;
            set_prop target field (VArr (List.filter (fun e => negb (matches e)) l))
          else
            set_prop target field (VArr (List.filter (fun e => negb (equal rt e arg)) l))
      | _ => Throw (Err "Cannot apply $pull/pullAll modifier to non-array")
      end
  end.

(** [$pullAll] *)
Definition mod_pullAll (target : value) (field : key) (arg : value) : result value :=
  match target with
  | VUndef => Ok target
  | _ =>
      match arg with
      | VArr args =>
          x ← get_prop target field;
          match x with
          | VUndef => Ok target
          | VArr l =>
              set_prop target field
                (VArr (List.filter (fun e => negb (existsb (equal rt e) args)) l))
          | _ => Throw (Err "Cannot apply $pull/pullAll modifier to non-array")
          end
      | _ => Throw (Err "Modifier $pushAll/pullAll allowed for arrays only")
      end
  end.

(** [$rename]: works on the whole document, reached through [put]. *)
Definition mod_rename (t : ModTarget) (field : key) (arg : value) (keypath : string)
  : result value :=
  match target t with
  | VUndef => Ok (put t VUndef)
  | tg =>
      match arg with
      | VStr a =>
          if String.eqb keypath a
          then Throw (Err "$rename source must differ from target")
          else match tg with
               | VNull => Throw (Err "$rename source field invalid")
               | _ =>
                   v ← get_prop tg field;
                   tg' ← delete_prop tg field;
                   t2 ← _findModTarget (put t tg') (split_on "." a) false true;
                   match target t2 with
                   | VNull => Throw (Err "$rename target field invalid")
                   | tg2 =>
                       tg2' ← set_prop tg2 (pop_field (keyparts_out t2)) v;
                       Ok (put t2 tg2')
                   end
               end
      | _ =>
          match tg with
          | VNull => Throw (Err "$rename source field invalid")
          | _ => Throw (Err "$rename target must be a string")
          end
      end
  end.

(** A modifier receives the resolved target, the field, the argument and
    the key path, and yields the document it leaves behind. *)
Definition modifier := ModTarget -> key -> value -> string -> result value.

Definition on_target (f : value -> key -> value -> result value) : modifier :=
  fun t field arg _ => x ← f (target t) field arg; Ok (put t x).

Definition _modifiers (key : string) : option modifier :=
  if String.eqb key "$inc" then Some (on_target mod_inc)
  else if String.eqb key "$set" then Some (on_target mod_set)
  else if String.eqb key "$unset" then Some (on_target mod_unset)
  else if String.eqb key "$push" then Some (on_target mod_push)
  else if String.eqb key "$pushAll" then Some (on_target mod_pushAll)
  else if String.eqb key "$addToSet" then Some (on_target mod_addToSet)
  else if String.eqb key "$pop" then Some (on_target mod_pop)
  else if String.eqb key "$pull" then Some (on_target mod_pull)
  else if String.eqb key "$pullAll" then Some (on_target mod_pullAll)
  else if String.eqb key "$rename" then Some mod_rename
  else if String.eqb key "$bit" then Some (fun _ _ _ _ => Throw (Err "$bit is not supported"))
  else None.

(** One round of the loop of [_applyModifier]: the clause [keypath: arg]
    of the modifier [key] applied to [doc]. *)
Definition apply_clause (modf : modifier) (key : string) (doc : value)
    (keypath : string) (arg : value) : result value :=
  t ← _findModTarget doc (split_on "." keypath)
        (_noCreateModifiers key) (String.eqb key "$rename");
  modf t (pop_field (keyparts_out t)) arg keypath.

Fixpoint apply_clauses (modf : modifier) (key : string) (val : value)
    (keypaths : list string) (doc : value) : result value :=
  match keypaths with
  | [] => Ok doc
  | keypath :: more =>
      arg ← get_prop val (KStr keypath);
      doc' ← apply_clause modf key doc keypath arg;
      apply_clauses modf key val more doc'
  end.

Definition _applyModifier (_docUpdate : value) (key : string) (val : value)
  : result value :=
  match _modifiers key with
  | None => Throw (Err ("Invalid modifier specified: " +:+ key))
  | Some modf => apply_clauses modf key val (enum_keys val) _docUpdate
  end.

End Engine.

(** ** Collections, events and the operation monad *)

Record Collection := mkCollection {
  docs : list value;
  doc_indexes : gmap string nat
}.

(** The arguments of an event.  [args.collection] is the collection
    itself, so a handler sees it as it is when the event is emitted:
    [ev_collection] is that state.  [ev_docs] is [args.doc] or
    [args.docs]. *)
Record Event := mkEvent {
  ev_name : string;
  ev_collection : Collection;
  ev_docs : list value
}.

(** A call [_emit] makes: the handler [dl_handler] of the store at
    position [dl_store]. *)
Record Delivery := mkDelivery {
  dl_store : nat;
  dl_handler : string;
  dl_event : Event
}.

Record World := mkWorld {
  coll : Collection;
  oid_count : nat;               (* ObjectIds created so far *)
  deliveries : list Delivery     (* calls on the stores, oldest first *)
}.

(** An operation changes the world and returns or throws; what it did
    before throwing stays done. *)
Record M (A : Type) := mkM { run : World -> World * result A }.
Arguments mkM {A} run.
Arguments run {A} m w.

#[global] Instance M_ret : MRet M := fun _ a => mkM (fun w => (w, Ok a)).
#[global] Instance M_bind : MBind M := fun _ _ f m =>
  mkM (fun w => match run m w with
                | (w', Ok a) => run (f a) w'
                | (w', Throw e) => (w', Throw e)
                end).

Definition throw {A} (e : error) : M A := mkM (fun w => (w, Throw e)).
Definition lift {A} (r : result A) : M A := mkM (fun w => (w, r)).
Definition get_coll : M Collection := mkM (fun w => (w, Ok (coll w))).
Definition set_coll (c : Collection) : M unit :=
  mkM (fun w => (mkWorld c (oid_count w) (deliveries w), Ok ())).

(** Modelled from the spec: Cursor.js is not part of the sources at hand.
    A cursor binds a compiled matcher, a [skip] count and a [limit] count
    (absent, negative or zero means unlimited) to a collection; [fetch]
    materializes the matching documents in insertion order, past the
    skipped ones and up to the limit.  With the empty field specification
    the projection is the identity. *)
Record Cursor := mkCursor {
  cur_matches : value -> bool;
  cur_skip : nat;
  cur_limit : option Z
}.

Definition cursor_fetch (cur : Cursor) (c : Collection) : list value :=
  let found := drop (cur_skip cur) (List.filter (cur_matches cur) (docs c)) in
  match cur_limit cur with
  | Some n => if (0 <? n)%Z then take (Z.to_nat n) found else found
  | None => found
  end.

(** The options [find] and [findOne] fall back to: [{skip: 0, limit: 15}]. *)
Definition default_cursor (matches : value -> bool) : Cursor :=
  mkCursor matches 0 (Some 15%Z).

(** The options [update] passes for [multi]: [{forceFetch: true}]. *)
Definition unlimited_cursor (matches : value -> bool) : Cursor :=
  mkCursor matches 0 None.

Record UpdateOptions := mkUpdateOptions {
  multi : bool;
  upsert : bool;
  updateAsMongo : bool;
  override : bool
}.

(** What [update] returns: [{updated: {documents, count}, inserted:
    {documents, count}}]; [None] stands for [documents: null]. *)
Record UpdateResult := mkUpdateResult {
  updated_documents : option (list value);
  updated_count : nat;
  inserted_documents : option value;
  inserted_count : nat
}.

Section Operations.

Variable rt : Runtime.

Definition new_ObjectId : M ObjectId :=
  mkM (fun w => (mkWorld (coll w) (S (oid_count w)) (deliveries w),
                 Ok (newObjectId rt (oid_count w)))).

(** [MongoPortable.prototype._emit]: the call made on one store. *)
Definition deliver_to (ev : Event) (i : nat) (store : Store) : list Delivery :=
  if bool_decide (ev_name ev ∈ store_handlers store)
  then [mkDelivery i (ev_name ev) ev]
  else if store_all store then [mkDelivery i "all" ev]
  else [].

(** The calls an event makes when the collection is [c]: one per store
    that handles it, in the order of [_stores]. *)
Definition emitted_by (name : string) (payload : list value) (c : Collection)
  : list Delivery :=
  concat (imap (deliver_to (mkEvent name c payload)) (_stores rt)).

Definition _emit (name : string) (payload : list value) : M unit :=
  mkM (fun w =>
    (mkWorld (coll w) (oid_count w)
       (deliveries w ++ emitted_by name payload (coll w)),
     Ok ())).

(** ** [Collection.prototype.insert] *)

Definition insert (doc : value) : M value :=
  match doc with
  | VUndef | VNull => throw (Err "doc parameter required")
  | VObj fields =>
      let _doc := cloneDeep doc in
      id0 ← lift (get_prop _doc (KStr "_id"));
      _doc ← lift (if is_number id0
                   then set_prop _doc (KStr "_id") (VStr (lodash_toString id0))
                   else Ok _doc);
      id1 ← lift (get_prop _doc (KStr "_id"));
      stripped ← lift (match (if truthy id1 then id1 else VStr "") with
                       | VStr s => Ok (strip_non_digits s)
                       | _ => Throw (TypeError "_doc._id.replace is not a function")
                       end);
      _doc ← lift (set_prop _doc (KStr "_id") (VStr stripped));
      _doc ← (if String.eqb stripped ""
              then o ← new_ObjectId; lift (set_prop _doc (KStr "_id") (VOid o))
              else mret _doc);
      stamp ← new_ObjectId;
      _doc ← lift (set_prop _doc (KStr "timestamp") (VNum (generationTime stamp)));
      id ← lift (get_prop _doc (KStr "_id"));
      c ← get_coll;
      set_coll (mkCollection (docs c ++ [_doc])
                  (<[lodash_toString id := length (docs c)]> (doc_indexes c)));;
      _emit "insert" [_doc];;
      mret _doc
  | _ => throw (Err "doc must be an object")
  end.

(** ** [Collection.prototype.find] and [findOne] *)

(** [null] stands for [{}], an ObjectId for [{_id: <id>}]. *)
Definition selection_document (selection : value) : value :=
  match selection with
  | VUndef | VNull => VObj []
  | VOid _ => VObj [("_id", selection)]
  | _ => selection
  end.

(** [find(selection)] with default options: the cursor. *)
Definition find (selection : value) : M Cursor :=
  matches ← lift (_compileSelector rt (selection_document selection));
  _emit "find" [];;
  mret (default_cursor matches).

(** [find(selection, null, {forceFetch: true})]: the fetched documents. *)
Definition find_fetch (selection : value) : M (list value) :=
  matches ← lift (_compileSelector rt (selection_document selection));
  _emit "find" [];;
  c ← get_coll;
  mret (cursor_fetch (unlimited_cursor matches) c).

(** [findOne(selection)]: the first match, or [null]. *)
Definition findOne (selection : value) : M value :=
  matches ← lift (_compileSelector rt (selection_document selection));
  _emit "findOne" [];;
  c ← get_coll;
  mret (match cursor_fetch (default_cursor matches) c with
        | d :: _ => d
        | [] => VNull
        end).

(** ** [Collection.prototype.update] *)

(** The first loop over the keys of [update]: it settles [override] or
    throws.  [hasModifier] and [override] persist from one key to the
    next. *)
Fixpoint scan_update_keys (options : UpdateOptions) (keys : list string)
    (hasModifier : bool) (override_ : option bool) : result (option bool) :=
  match keys with
  | [] => Ok override_
  | key :: more =>
      let modifier := is_modifier_key key in
      let hasModifier := hasModifier || modifier in
      if updateAsMongo options then
        if hasModifier && negb modifier
        then Throw (Err "All update fields must be an update operator")
        else if negb hasModifier && multi options
        then Throw (Err "You can not update several documents when no update operators are included")
        else scan_update_keys options more hasModifier (Some (negb hasModifier))
      else scan_update_keys options more hasModifier (Some (override options))
  end.

(** The [override] branch: a copy of [update] from which the loop deletes
    every key that neither begins with ['$'] nor contains ['.'], and which
    then receives the [_id] of [doc]. *)
Fixpoint override_keys (keys : list string) (_docUpdate : value) : result value :=
  match keys with
  | [] => Ok _docUpdate
  | key :: more =>
      if is_modifier_key key || has_dot key
      then override_keys more _docUpdate          (* Logger.warn *)
      else d ← delete_prop _docUpdate (KStr key); override_keys more d
  end.

(** The other branch: modifiers are applied, a plain key overwrites a
    field the document already has (never [_id]). *)
Fixpoint modify_keys (update : value) (keys : list string) (_docUpdate : value)
  : result value :=
  match keys with
  | [] => Ok _docUpdate
  | key :: more =>
      val ← get_prop update (KStr key);
      d ← (if is_modifier_key key then _applyModifier rt _docUpdate key val
           else
             cur ← get_prop _docUpdate (KStr key);
             if negb (isNil cur) then
               if negb (String.eqb key "_id")
               then set_prop _docUpdate (KStr key) val
               else Ok _docUpdate                  (* Logger.warn *)
             else Ok _docUpdate);                  (* Logger.warn *)
      modify_keys update more d
  end.

(** The document that takes the place of [doc]: the body of the loop over
    the matched documents, up to the write. *)
Definition updated_document (update : value) (options : UpdateOptions) (doc : value)
  : result value :=
  override_ ← scan_update_keys options (enum_keys update) false None;
  if bool_decide (override_ = Some true) then
    d ← override_keys (enum_keys update) (cloneDeep update);
    id ← get_prop doc (KStr "_id");
    set_prop d (KStr "_id") id
  else modify_keys update (enum_keys update) (cloneDeep doc).

(** [this.docs[this.doc_indexes[_docUpdate._id]] = _docUpdate].  Without
    an index entry the write goes to the property ["undefined"] of the
    array and no element changes. *)
Definition store_document (_docUpdate : value) : M unit :=
  id ← lift (get_prop _docUpdate (KStr "_id"));
  c ← get_coll;
  match doc_indexes c !! to_property_key id with
  | Some idx => set_coll (mkCollection (arr_set (docs c) idx _docUpdate) (doc_indexes c))
  | None => mret ()
  end.

Fixpoint update_loop (update : value) (options : UpdateOptions)
    (matched : list value) (updatedDocs : list value) : M (list value) :=
  match matched with
  | [] => mret updatedDocs
  | doc :: more =>
      _docUpdate ← lift (updated_document update options doc);
      store_document _docUpdate;;
      update_loop update options more (updatedDocs ++ [_docUpdate])
  end.

(** The documents [update] works on: every match with [multi], else the
    first one; [null] becomes [[]] and a single document [[doc]]. *)
Definition update_targets (selection : value) (options : UpdateOptions)
  : M (list value) :=
  if multi options then find_fetch selection
  else found ← findOne selection;
       mret (match found with
             | VUndef | VNull => []
             | VArr l => l
             | d => [d]
             end).

Definition update (selection update : value) (options : UpdateOptions)
  : M UpdateResult :=
  let update := if isNil update then VArr [] else update in
  matched ← update_targets selection options;
  match matched with
  | [] =>
      if upsert options then
        inserted ← insert update;
        mret (mkUpdateResult None 0 (Some inserted) 1)
      else mret (mkUpdateResult None 0 None 0)
  | _ =>
      updatedDocs ← update_loop update options matched [];
      _emit "update" updatedDocs;;
      mret (mkUpdateResult (Some updatedDocs) (length updatedDocs) None 0)
  end.

(** ** [Collection.prototype.remove] *)

(** The callback [remove] hands to [cursor.forEach].  Without an index
    entry [idx] is [undefined] and [splice(undefined, 1)] removes the
    first document. *)
Definition remove_document (doc : value) : M unit :=
  id ← lift (get_prop doc (KStr "_id"));
  c ← get_coll;
  let idx := default 0 (doc_indexes c !! to_property_key id) in
  set_coll (mkCollection (delete idx (docs c))
              (delete (to_property_key id) (doc_indexes c))).

Fixpoint remove_loop (matched : list value) : M unit :=
  match matched with
  | [] => mret ()
  | doc :: more => remove_document doc;; remove_loop more
  end.

(** [cursor.forEach] is taken to visit the documents [fetch] yields. *)
Definition remove (selection : value) : M (list value) :=
  cursor ← find selection;
  c ← get_coll;
  let matched := cursor_fetch cursor c in
  remove_loop matched;;
  _emit "remove" matched;;
  mret matched.

End Operations.

(** ** A concrete runtime

    Used to run the operations on literal inputs. *)

(** Modelled from the spec: [Selector._f._equal] is not part of the
    sources at hand.  The spec calls it deep-equal: structural recursion
    over the two values, identifiers compared by their string form. *)
Fixpoint deep_equal (a b : value) : bool :=
  match a, b with
  | VUndef, VUndef | VNull, VNull => true
  | VBool x, VBool y => Bool.eqb x y
  | VNum x, VNum y => (x =? y)%Z
  | VStr x, VStr y => String.eqb x y
  | VOid x, VOid y => String.eqb (oid_hex x) (oid_hex y)
  | VArr xs, VArr ys =>
      (fix go (xs ys : list value) : bool :=
         match xs, ys with
         | [], [] => true
         | x :: xs', y :: ys' => deep_equal x y && go xs' ys'
         | _, _ => false
         end) xs ys
  | VObj xs, VObj ys =>
      (fix go (xs ys : list (string * value)) : bool :=
         match xs, ys with
         | [], [] => true
         | (k, x) :: xs', (k', y) :: ys' =>
             String.eqb k k' && deep_equal x y && go xs' ys'
         | _, _ => false
         end) xs ys
  | _, _ => false
  end.

(** Modelled from the spec: [Selector._compileSelector] is not part of the
    sources at hand.  This is the fragment the examples need: a predicate
    document is the conjunction of its clauses, and a clause [field:
    literal] holds when the field deep-equals the literal or is an array
    with an element that does.  Operators are not covered. *)
Definition literal_clause (doc : value) (clause : string * value) : bool :=
  let field := match get_prop doc (KStr clause.1) with
               | Ok v => v
               | Throw _ => VUndef
               end in
  deep_equal field clause.2 ||
  match field with
  | VArr l => existsb (deep_equal clause.2) l
  | _ => false
  end.

Definition literal_selector (selection : value) : result (value -> bool) :=
  match selection with
  | VObj clauses =>
      if existsb (fun c => is_modifier_key c.1) clauses
      then Throw (Err "operator not covered")
      else Ok (fun doc => forallb (literal_clause doc) clauses)
  | _ => Throw (Err "selector not covered")
  end.

(** Modelled from the spec: the n-th identifier of the process, created at
    second [1500000000 + n]; its string form has 24 characters. *)
Definition counter_ObjectId (n : nat) : ObjectId :=
  let digits := pretty n in
  mkObjectId (string_of_list_ascii
                (replicate (24 - String.length digits) "0"%char) +:+ digits)
             (1500000000 + Z.of_nat n).

(** Two observers: one with a handler per mutation, one catch-all. *)
Definition demo_stores : list Store :=
  [mkStore ["insert"; "update"; "remove"] false; mkStore [] true].

Definition demo_rt : Runtime :=
  mkRuntime deep_equal literal_selector demo_stores counter_ObjectId.

Definition empty_world : World := mkWorld (mkCollection [] ∅) 0 [].

(** Strict mode, the documented default of [updateAsMongo]. *)
Definition strict_options : UpdateOptions := mkUpdateOptions false false true false.

(** ** Notions used by the statements *)

(** The id index maps the [_id] of every stored document to the position
    the document is stored at. *)
Definition index_inv (c : Collection) : Prop :=
  ∀ i d, docs c !! i = Some d →
    ∃ id, get_prop d (KStr "_id") = Ok id ∧
          doc_indexes c !! to_property_key id = Some i.




(** The digits [insert] keeps of a provided [_id]: a number is written
    in decimal first, then every character that is not a digit goes. *)
Definition provided_id_digits (id0 : value) : string :=
  match id0 with
  | VNum n => strip_non_digits (pretty n)
  | VStr s => strip_non_digits s
  | _ => ""
  end.

(** The values of [_id] that [insert] can normalize: a number, a string,
    or something falsy.  Anything else has no method [replace]. *)
Definition acceptable_id (id0 : value) : Prop :=
  match id0 with
  | VUndef | VNull | VBool false | VNum _ | VStr _ => True
  | _ => False
  end.

Definition is_ok {A} (r : result A) : bool :=
  match r with Ok _ => true | Throw _ => false end.


(** The world once [update] has resolved its targets: the query has been
    announced to the stores, nothing else has changed. *)
Definition queried (rt : Runtime) (w : World) (options : UpdateOptions) : World :=
  mkWorld (coll w) (oid_count w)
    (deliveries w
     ++ emitted_by rt (if multi options then "find" else "findOne") [] (coll w)).

(** ** [Collection.prototype.save] *)

(** The options [update] falls back to: no flag is set. *)
Definition default_options : UpdateOptions := mkUpdateOptions false false false false.

(** [save(obj, fn)].  The test is [self.docs[obj._id]]: the array of
    documents read at the property [obj._id].  [update] is called with
    the selection [{_id: obj._id}] and the callback in the place of the
    update document, which makes the update document [[]]. *)
Definition save (rt : Runtime) (obj : value) : M unit :=
  id ← lift (get_prop obj (KStr "_id"));
  c ← get_coll;
  slot ← lift (get_prop (VArr (docs c)) (KStr (to_property_key id)));
  if truthy slot
  then update rt (VObj [("_id", id)]) (VArr []) default_options;; mret ()
  else insert rt obj;; mret ().

(** ** Names: [Collection.checkCollectionName], [_validateDatabaseName] *)

(** [p] is the beginning of [s]. *)
Fixpoint starts_with (p s : string) : bool :=
  match p, s with
  | EmptyString, _ => true
  | String a p', String b s' => Ascii.eqb a b && starts_with p' s'
  | String _ _, EmptyString => false
  end.

(** [s.indexOf(needle) !== -1] *)
Fixpoint contains (needle s : string) : bool :=
  starts_with needle s ||
  match s with
  | EmptyString => false
  | String _ s' => contains needle s'
  end.

(** [/\.$/]: the last character of [s] is [c]. *)
Fixpoint ends_with_char (c : ascii) (s : string) : bool :=
  match s with
  | EmptyString => false
  | String a EmptyString => Ascii.eqb a c
  | String _ s' => ends_with_char c s'
  end.

Definition checkCollectionName (collectionName : value) : result unit :=
  match collectionName with
  | VStr s =>
      if String.eqb s "" || contains ".." s
      then Throw (Err "collection names cannot be empty")
      else if contains "$" s && negb (starts_with "$cmd" s || contains "oplog.$main" s)
      then Throw (Err "collection names must not contain '$'")
      else if starts_with "." s || ends_with_char "." s
      then Throw (Err "collection names must not start or end with '.'")
      else Ok ()
  | _ => Throw (Err "collection name must be a String")
  end.

Definition invalidChars : list string := [" "; "."; "$"; "/"; "\"].

(** The loop of [_validateDatabaseName] over [invalidChars]. *)
Fixpoint first_invalid (chars : list string) (databaseName : string) : option string :=
  match chars with
  | [] => None
  | c :: more =>
      if contains c databaseName then Some c else first_invalid more databaseName
  end.

Definition _validateDatabaseName (databaseName : value) : result bool :=
  match databaseName with
  | VStr s =>
      if (String.length s =? 0)%nat
      then Throw (Err "database name cannot be the empty string")
      else match first_invalid invalidChars s with
           | Some c => Throw (Err ("database names cannot contain the character '"
                                   +:+ c +:+ "'"))
           | None => Ok true
           end
  | _ => Throw (Err "database name must be a string")
  end.

(** ** The collection object and the database *)

(** A collection as the database holds it: [this.db.databaseName],
    [this.name], [this.fullName], and the documents with their index. *)
Record CollectionObject := mkCollectionObject {
  dbName : string;
  name : string;
  fullName : string;
  contents : Collection
}.

(** [new Collection(db, collectionName, options)] for the database named
    [databaseName]. *)
Definition new_Collection (databaseName : string) (collectionName : value)
  : result CollectionObject :=
  if isNil collectionName then Throw (Err "collectionName parameter required")
  else
    _ ← checkCollectionName collectionName;
    Ok (mkCollectionObject databaseName (to_property_key collectionName)
          (databaseName +:+ "." +:+ to_property_key collectionName)
          (mkCollection [] ∅)).

(** [Collection.prototype.rename]: the collection it returns ([this],
    renamed), or [None] where it returns [undefined]. *)
Definition rename (c : CollectionObject) (newName : value)
  : result (option CollectionObject) :=
  match newName with
  | VStr n =>
      if negb (String.eqb (name c) n) then
        _ ← checkCollectionName newName;
        Ok (Some (mkCollectionObject (dbName c) n (dbName c +:+ "." +:+ n)
                    (contents c)))
      else Ok None
  | _ => Ok None
  end.

(** The own properties of a JavaScript object used as a map, in [for-in]
    order. *)
Fixpoint prop_get {A} (obj : list (string * A)) (k : string) : option A :=
  match obj with
  | [] => None
  | (k', v) :: obj' => if String.eqb k' k then Some v else prop_get obj' k
  end.

Fixpoint prop_set {A} (obj : list (string * A)) (k : string) (x : A)
  : list (string * A) :=
  match obj with
  | [] => [(k, x)]
  | (k', v) :: obj' =>
      if String.eqb k' k then (k', x) :: obj' else (k', v) :: prop_set obj' k x
  end.

Fixpoint prop_del {A} (obj : list (string * A)) (k : string) : list (string * A) :=
  match obj with
  | [] => []
  | (k', v) :: obj' =>
      if String.eqb k' k then prop_del obj' k else (k', v) :: prop_del obj' k
  end.


(** The database object: [databaseName], [_collections] and [_stores]. *)
Record MongoPortable := mkMongoPortable {
  databaseName : string;
  _collections : list (string * CollectionObject);
  db_stores : list Store
}.

(** A call [_emit] makes for an event of the database: the store, the
    handler, the event and the names of the collections in its arguments. *)
Record DbDelivery := mkDbDelivery {
  dd_store : nat;
  dd_handler : string;
  dd_event : string;
  dd_names : list string
}.

Definition db_deliver_to (event : string) (names : list string) (i : nat)
    (store : Store) : list DbDelivery :=
  if bool_decide (event ∈ store_handlers store)
  then [mkDbDelivery i event event names]
  else if store_all store then [mkDbDelivery i "all" event names]
  else [].

(** [MongoPortable.prototype._emit] on the stores of a database. *)
Definition db_emit (db : MongoPortable) (event : string) (names : list string)
  : list DbDelivery :=
  concat (imap (db_deliver_to event names) (db_stores db)).

(** What a method of the database leaves behind: the database, the calls
    made on the stores, and what the method returns or throws. *)
Record DbStep (A : Type) := mkDbStep {
  db_after : MongoPortable;
  db_calls : list DbDelivery;
  db_outcome : result A
}.
Arguments mkDbStep {A} db_after db_calls db_outcome.
Arguments db_after {A} d.
Arguments db_calls {A} d.
Arguments db_outcome {A} d.

(** [new MongoPortable(databaseName)], given the registry
    [MongoPortable.connections] and the ObjectId the constructor creates:
    the database and the registry afterwards. *)
Definition new_MongoPortable (connections : gmap string ObjectId)
    (databaseName : value) (id : ObjectId)
  : result (MongoPortable * gmap string ObjectId) :=
  _ ← _validateDatabaseName databaseName;
  let dbname := to_property_key databaseName in
  match connections !! dbname with
  | Some _ => Throw (Err "db name already in use")
  | None => Ok (mkMongoPortable dbname [] [], <[dbname := id]> connections)
  end.

(** [MongoPortable.prototype.collection] *)
Definition collection (db : MongoPortable) (collectionName : value)
  : DbStep CollectionObject :=
  let key := to_property_key collectionName in
  match prop_get (_collections db) key with
  | Some c => mkDbStep db (db_emit db "createCollection" [name c]) (Ok c)
  | None =>
      match new_Collection (databaseName db) collectionName with
      | Ok c =>
          mkDbStep (mkMongoPortable (databaseName db)
                      (prop_set (_collections db) key c) (db_stores db))
            (db_emit db "createCollection" [name c]) (Ok c)
      | Throw e => mkDbStep db [] (Throw e)
      end
  end.

(** [MongoPortable.prototype.dropCollection] *)
Definition dropCollection (db : MongoPortable) (collectionName : value)
  : DbStep bool :=
  let key := to_property_key collectionName in
  match prop_get (_collections db) key with
  | Some c =>
      mkDbStep (mkMongoPortable (databaseName db)
                  (prop_del (_collections db) key) (db_stores db))
        (db_emit db "dropCollection" [name c]) (Ok true)
  | None => mkDbStep db [] (Ok false)
  end.


(** [MongoPortable.prototype.addStore] with a store object. *)
Definition addStore (db : MongoPortable) (store : Store) : MongoPortable :=
  mkMongoPortable (databaseName db) (_collections db) (db_stores db ++ [store]).

(** Every collection of the database is registered under its own name
    and carries the name of the database. *)
Definition registry_inv (db : MongoPortable) : Prop :=
  ∀ k c, prop_get (_collections db) k = Some c →
    name c = k ∧ dbName c = databaseName db ∧
    fullName c = databaseName db +:+ "." +:+ k ∧
    checkCollectionName (VStr k) = Ok ().

(** The clauses [{key: {k: a}}] for the elements [a] of [args], applied
    one after the other. *)
Fixpoint apply_each (rt : Runtime) (key k : string) (args : list value)
    (doc : value) : result value :=
  match args with
  | [] => Ok doc
  | a :: more =>
      d ← _applyModifier rt doc key (VObj [(k, a)]);
      apply_each rt key k more d
  end.

(** * Properties *)

Ltac unfold_result :=
  unfold mbind, result_bind, mret, result_ret, rbind in *.

(** ** Objects and arrays *)

Lemma obj_get_set_eq fs k x : obj_get (obj_set fs k x) k = Some x.
Proof.
  induction fs as [|[k' v] fs IH]; simpl.
  - by rewrite String.eqb_refl.
  - destruct (String.eqb k' k) eqn:E; simpl; rewrite E; auto.
Qed.

Lemma obj_get_set_ne fs k k' x :
  k ≠ k' → obj_get (obj_set fs k x) k' = obj_get fs k'.
Proof.
  intros Hne. induction fs as [|[k0 v] fs IH]; simpl.
  - destruct (String.eqb k k') eqn:E; [|done].
    apply String.eqb_eq in E. done.
  - destruct (String.eqb k0 k) eqn:E; simpl.
    + apply String.eqb_eq in E. subst k0.
      destruct (String.eqb k k') eqn:E'; [|done].
      apply String.eqb_eq in E'. done.
    + destruct (String.eqb k0 k'); auto.
Qed.

Lemma obj_set_set fs k x y : obj_set (obj_set fs k x) k y = obj_set fs k y.
Proof.
  induction fs as [|[k' v] fs IH]; simpl.
  - by rewrite String.eqb_refl.
  - destruct (String.eqb k' k) eqn:E; simpl; rewrite E; [done|]. by rewrite IH.
Qed.





(** A key without dots is a path of one segment. *)
Lemma split_on_no_dot k : has_dot k = false → split_on "." k = [k].
Proof.
  induction k as [|a k IH]; simpl; [done|].
  destruct (Ascii.eqb a ".") eqn:E; simpl; [done|].
  intros Hk. by rewrite IH.
Qed.

(** ** Reading back what was written *)



Section Modifiers.

Variable rt : Runtime.


End Modifiers.


(** The scenario of the specification: [{$inc: {a: 5}}] takes [a] from 1
    to 6, and from 6 to 11. *)
Example inc_twice :
  _applyModifier demo_rt (VObj [("a", VNum 1)]) "$inc" (VObj [("a", VNum 5)])
  = Ok (VObj [("a", VNum 6)]) ∧
  _applyModifier demo_rt (VObj [("a", VNum 6)]) "$inc" (VObj [("a", VNum 5)])
  = Ok (VObj [("a", VNum 11)]).
Proof. split; reflexivity. Qed.

(** ** Path resolution through an array *)




(** ** Walking a key path twice *)




(** ** Idempotence of [$set] and [$addToSet] *)


Section Idempotence.

Variable rt : Runtime.






End Idempotence.


(** ** The operation monad *)

Lemma run_bind {A B} (m : M A) (f : A → M B) w :
  run (m ≫= f) w
  = match run m w with
    | (w', Ok a) => run (f a) w'
    | (w', Throw e) => (w', Throw e)
    end.
Proof. reflexivity. Qed.

Section Insert.

Variable rt : Runtime.

(** ** [insert] *)

(** What [insert] does with a document whose [_id] it accepts. *)
Lemma insert_ok fields w :
  let id0 := default VUndef (obj_get fields "_id") in
  let digits := provided_id_digits id0 in
  let fresh := String.eqb digits "" in
  let id := if fresh then VOid (newObjectId rt (oid_count w)) else VStr digits in
  let stamp := newObjectId rt (if fresh then S (oid_count w) else oid_count w) in
  let d := VObj (obj_set (obj_set fields "_id" id) "timestamp"
                   (VNum (generationTime stamp))) in
  let c' := mkCollection (docs (coll w) ++ [d])
              (<[lodash_toString id := length (docs (coll w))]>
                 (doc_indexes (coll w))) in
  acceptable_id id0 →
  run (insert rt (VObj fields)) w
  = (mkWorld c' (if fresh then S (S (oid_count w)) else S (oid_count w))
       (deliveries w ++ emitted_by rt "insert" [d] c'),
     Ok d).
Proof.
  intros id0 digits fresh id stamp d c' Hid.
  assert (Hget : default VUndef (obj_get fields "_id") = id0) by done.
  clearbody id0.
  unfold insert, cloneDeep. simpl. rewrite Hget.
  assert (Hstrip :
    (let id1 := if is_number id0 then VStr (lodash_toString id0) else id0 in
     match (if truthy id1 then id1 else VStr "") with
     | VStr s => Ok (strip_non_digits s)
     | _ => Throw (TypeError "_doc._id.replace is not a function")
     end) = Ok digits).
  { assert (Hs : ∀ s, (if truthy (VStr s) then VStr s else VStr "") = VStr s).
    { intros s. simpl. destruct (String.eqb s "") eqn:E; [|done].
      apply String.eqb_eq in E. by subst. }
    unfold digits. destruct id0 as [| |[]| | | | |]; try done; simpl is_number;
      cbv iota; by rewrite Hs. }
  destruct (is_number id0) eqn:Hnum; simpl.
  - rewrite obj_get_set_eq. simpl. simpl in Hstrip. rewrite Hstrip. simpl.
    rewrite !obj_set_set. fold fresh.
    unfold d, c', id, stamp, emitted_by.
    destruct fresh; simpl; rewrite ?obj_set_set;
      rewrite obj_get_set_ne by done; rewrite obj_get_set_eq; done.
  - rewrite ?Hget. simpl in Hstrip. rewrite Hstrip. simpl. fold fresh.
    unfold d, c', id, stamp, emitted_by.
    destruct fresh; simpl; rewrite ?obj_set_set;
      rewrite obj_get_set_ne by done; rewrite obj_get_set_eq; done.
Qed.

(** The fields of the stored copy. *)
Lemma inserted_fields fields id ts (k : string) :
  get_prop (VObj (obj_set (obj_set fields "_id" id) "timestamp" ts)) (KStr k)
  = Ok (if String.eqb k "timestamp" then ts
        else if String.eqb k "_id" then id
        else default VUndef (obj_get fields k)).
Proof.
  simpl. f_equal.
  destruct (String.eqb k "timestamp") eqn:Ets.
  { apply String.eqb_eq in Ets. subst. by rewrite obj_get_set_eq. }
  apply String.eqb_neq in Ets. rewrite obj_get_set_ne by done.
  destruct (String.eqb k "_id") eqn:Eid.
  { apply String.eqb_eq in Eid. subst. by rewrite obj_get_set_eq. }
  apply String.eqb_neq in Eid. by rewrite obj_get_set_ne.
Qed.


End Insert.


Section Update.

Variable rt : Runtime.

(** ** Events *)



(** ** The targets of [update] *)

Lemma update_targets_run selection options w :
  run (update_targets rt selection options) w
  = match _compileSelector rt (selection_document selection) with
    | Throw e => (w, Throw e)
    | Ok matches =>
        (queried rt w options,
         Ok (if multi options
             then cursor_fetch (unlimited_cursor matches) (coll w)
             else match cursor_fetch (default_cursor matches) (coll w) with
                  | [] | VUndef :: _ | VNull :: _ => []
                  | VArr l :: _ => l
                  | d :: _ => [d]
                  end))
    end.
Proof.
  unfold update_targets, queried, find_fetch, findOne.
  destruct (multi options); simpl;
    destruct (_compileSelector rt (selection_document selection)); simpl; try done.
  destruct (cursor_fetch _ _) as [|[] ?]; done.
Qed.

Lemma no_match_no_target matches skip limit c :
  List.filter matches (docs c) = [] →
  cursor_fetch (mkCursor matches skip limit) c = [].
Proof.
  unfold cursor_fetch. simpl. intros ->. rewrite drop_nil.
  destruct limit as [n|]; [|done]. destruct (0 <? n)%Z; [|done]. by rewrite take_nil.
Qed.

(** C10. When no document matches and [upsert] is set, [update] hands
    the update document itself to [insert] and returns what [insert]
    stored with the counts 0 and 1.  For an update document that is an
    object the insertion succeeds, and every key of it other than [_id]
    and [timestamp], an operator key like ["$set"] included, is a field
    of the stored document with the value it came with. *)
Theorem upsert_inserts_update_document
    (selection update_doc : value) (options : UpdateOptions) (w : World)
    (matches : value → bool) :
  upsert options = true →
  isNil update_doc = false →
  _compileSelector rt (selection_document selection) = Ok matches →
  List.filter matches (docs (coll w)) = [] →
  run (update rt selection update_doc options) w
  = match run (insert rt update_doc) (queried rt w options) with
    | (w', Ok d) => (w', Ok (mkUpdateResult None 0 (Some d) 1))
    | (w', Throw e) => (w', Throw e)
    end ∧
  ∀ fields, update_doc = VObj fields →
    acceptable_id (default VUndef (obj_get fields "_id")) →
    ∃ d w', run (update rt selection update_doc options) w
            = (w', Ok (mkUpdateResult None 0 (Some d) 1)) ∧
            docs (coll w') = docs (coll w) ++ [d] ∧
            ∀ k, k ≠ "_id" → k ≠ "timestamp" →
                 get_prop d (KStr k) = get_prop update_doc (KStr k).
Proof.
  intros Hupsert Hnil Hsel Hnone.
  assert (Hrun : run (update rt selection update_doc options) w
    = match run (insert rt update_doc) (queried rt w options) with
      | (w', Ok d) => (w', Ok (mkUpdateResult None 0 (Some d) 1))
      | (w', Throw e) => (w', Throw e)
      end).
  { unfold update. rewrite Hnil, run_bind, update_targets_run, Hsel.
    unfold unlimited_cursor, default_cursor.
    rewrite !no_match_no_target by done.
    replace (if multi options then [] else []) with (@nil value)
      by (by destruct (multi options)).
    rewrite Hupsert, run_bind.
    by destruct (run (insert rt update_doc) (queried rt w options)) as [w' [d|e]]. }
  split; [exact Hrun|].
  intros fields -> Hid.
  rewrite Hrun, (insert_ok rt fields (queried rt w options) Hid).
  eexists _, _. split; [reflexivity|]. split; [done|].
  intros k Hk1 Hk2. rewrite inserted_fields.
  apply String.eqb_neq in Hk1, Hk2. by rewrite Hk1, Hk2.
Qed.

End Update.

Lemma upsert_inserts_update_document_witness :
  let update_doc := VObj [("$set", VObj [("x", VNum 1)])] in
  let d := VObj [("$set", VObj [("x", VNum 1)]);
                 ("_id", VOid (counter_ObjectId 0));
                 ("timestamp", VNum 1500000001)] in
  ∃ w', run (update demo_rt (VObj [("a", VNum 1)]) update_doc
               (mkUpdateOptions false true true false)) empty_world
        = (w', Ok (mkUpdateResult None 0 (Some d) 1)) ∧
        docs (coll w') = [d].
Proof.
  intros update_doc d.
  destruct (upsert_inserts_update_document demo_rt
              (VObj [("a", VNum 1)]) update_doc
              (mkUpdateOptions false true true false) empty_world
              (λ doc, forallb (literal_clause doc) [("a", VNum 1)])
              eq_refl eq_refl eq_refl eq_refl) as [Hrun _].
  eexists. rewrite Hrun. split; reflexivity.
Defined.

Section Failure.

Variable rt : Runtime.

(** [insert] either fails before it touches the collection or any store,
    or stores the copy and announces it in the state it leaves. *)
Lemma insert_cases doc w :
  (∃ e, run (insert rt doc) w
        = (mkWorld (coll w) (oid_count (run (insert rt doc) w).1) (deliveries w),
           Throw e)) ∨
  (∃ d, (run (insert rt doc) w).2 = Ok d ∧
        deliveries (run (insert rt doc) w).1
        = deliveries w ++ emitted_by rt "insert" [d] (coll (run (insert rt doc) w).1)).
Proof.
  destruct doc as [| | | | | | |fields];
    try (left; eexists; simpl; by destruct w).
  set (id0 := default VUndef (obj_get fields "_id")).
  assert (Hid : acceptable_id id0 ∨ ¬ acceptable_id id0).
  { destruct id0 as [| |[]| | | | |]; simpl; auto. }
  destruct Hid as [Hid|Hid].
  - right. rewrite (insert_ok rt fields w Hid). eexists. split; [reflexivity|]. done.
  - left. assert (Hget : default VUndef (obj_get fields "_id") = id0) by done.
    clearbody id0. unfold insert, cloneDeep. simpl. rewrite Hget.
    destruct id0 as [| |[]| | | | |]; simpl in *; try tauto;
      rewrite ?Hget; simpl; eexists; by destruct w.
Qed.


Lemma update_loop_cons update options doc more acc w :
  run (update_loop rt update options (doc :: more) acc) w
  = match updated_document rt update options doc with
    | Ok u =>
        match run (store_document u) w with
        | (w1, Ok _) => run (update_loop rt update options more (acc ++ [u])) w1
        | (w1, Throw e) => (w1, Throw e)
        end
    | Throw e => (w, Throw e)
    end.
Proof.
  cbn [update_loop]. rewrite run_bind. unfold lift at 1. cbn [run].
  destruct (updated_document rt update options doc); [|done].
  by rewrite run_bind.
Qed.



Lemma cursor_fetch_stored cur c d : d ∈ cursor_fetch cur c → d ∈ docs c.
Proof.
  unfold cursor_fetch. intros Hd.
  assert (Hfound : d ∈ drop (cur_skip cur) (List.filter (cur_matches cur) (docs c))).
  { destruct (cur_limit cur) as [n|]; [|done].
    destruct (0 <? n)%Z; [|done]. by eapply subseteq_take. }
  apply subseteq_drop in Hfound.
  apply list_elem_of_In, filter_In in Hfound as [Hin _].
  by apply list_elem_of_In.
Qed.



End Failure.


(** ** When events are emitted *)


Section Events.

Variable rt : Runtime.







End Events.

(** ** The id index *)

Section Index.

Variable rt : Runtime.

(** [insert] keeps the index in step with [docs], as long as the
    identifier of the new document is not in use. *)
Lemma insert_keeps_index fields w :
  let id0 := default VUndef (obj_get fields "_id") in
  let digits := provided_id_digits id0 in
  let id := if String.eqb digits "" then VOid (newObjectId rt (oid_count w))
            else VStr digits in
  acceptable_id id0 →
  index_inv (coll w) →
  doc_indexes (coll w) !! to_property_key id = None →
  index_inv (coll (run (insert rt (VObj fields)) w).1).
Proof.
  intros id0 digits id Hid Hinv Hfresh.
  rewrite (insert_ok rt fields w Hid). cbv zeta. fold id0. fold digits. fold id.
  assert (Hkey : lodash_toString id = to_property_key id).
  { unfold id. by destruct (String.eqb digits ""). }
  intros i d. simpl. rewrite Hkey. intros Hi.
  destruct (decide (i < length (docs (coll w)))) as [Hlt|Hge].
  - rewrite lookup_app_l in Hi by done.
    destruct (Hinv i d Hi) as (id' & Hget & Hidx). exists id'. split; [done|].
    rewrite lookup_insert_ne; [done|]. intros Heq. congruence.
  - assert (i = length (docs (coll w))) as ->.
    { apply lookup_lt_Some in Hi. rewrite length_app in Hi. simpl in Hi. lia. }
    rewrite lookup_app_r, Nat.sub_diag in Hi by done. injection Hi as <-.
    exists id. rewrite inserted_fields. simpl. by rewrite lookup_insert_eq.
Qed.

End Index.

(** C1 at work: two documents are inserted and the first one is removed.
    After the two inserts the index maps each [_id] to the position of
    its document.  [remove] deletes the entry of the removed document and
    splices it out of [docs], but leaves the entry of the document that
    moved from position 1 to position 0 as it was: the index sends its
    [_id] to position 1, where there is no document. *)
Theorem remove_leaves_stale_index :
  let w1 := (run (insert demo_rt (VObj [("_id", VStr "1")])) empty_world).1 in
  let w2 := (run (insert demo_rt (VObj [("_id", VStr "2")])) w1).1 in
  let r := run (remove demo_rt (VObj [("_id", VStr "1")])) w2 in
  let d1 := VObj [("_id", VStr "1"); ("timestamp", VNum 1500000000)] in
  let d2 := VObj [("_id", VStr "2"); ("timestamp", VNum 1500000001)] in
  docs (coll w2) = [d1; d2] ∧ index_inv (coll w2) ∧
  r.2 = Ok [d1] ∧
  docs (coll r.1) = [d2] ∧
  doc_indexes (coll r.1) !! "2" = Some 1 ∧
  docs (coll r.1) !! 1 = None ∧
  ¬ index_inv (coll r.1).
Proof.
  intros w1 w2 r d1 d2.
  split; [reflexivity|]. split.
  { intros i d Hi. destruct i as [|[|i]]; simpl in Hi; [| |done];
      injection Hi as <-; eexists; split; reflexivity. }
  split; [reflexivity|]. split; [reflexivity|]. split; [reflexivity|].
  split; [reflexivity|].
  intros Hinv. destruct (Hinv 0 d2 eq_refl) as (id & Hget & Hidx).
  injection Hget as <-. vm_compute in Hidx. discriminate.
Qed.

(** ** Replacement and mixed update documents *)

(** C2 at work: [update({a: 1}, {b: 2})] in strict mode.  The loop of
    the [override] branch deletes from the copy of the update document
    the very keys it should keep, so the stored document ends up with its
    [_id] alone: [b] is not there. *)
Theorem replacement_drops_fields :
  let w1 := (run (insert demo_rt (VObj [("a", VNum 1)])) empty_world).1 in
  let r := run (update demo_rt (VObj [("a", VNum 1)]) (VObj [("b", VNum 2)])
                  strict_options) w1 in
  let id := VOid (counter_ObjectId 0) in
  docs (coll w1) = [VObj [("a", VNum 1); ("_id", id);
                          ("timestamp", VNum 1500000001)]] ∧
  r.2 = Ok (mkUpdateResult (Some [VObj [("_id", id)]]) 1 None 0) ∧
  docs (coll r.1) = [VObj [("_id", id)]] ∧
  docs (coll r.1) ≠ [VObj [("_id", id); ("b", VNum 2)]] ∧
  (∀ d, d ∈ docs (coll r.1) → get_prop d (KStr "b") = Ok VUndef).
Proof.
  intros w1 r id. repeat split; try reflexivity.
  - discriminate.
  - intros d Hd. vm_compute in Hd. apply list_elem_of_singleton in Hd. by subst.
Qed.

(** The check of the first loop of [update] does fire when the operator
    comes first. *)
Lemma scan_rejects_plain_after_modifier options keys key override_ :
  updateAsMongo options = true → is_modifier_key key = false → key ∈ keys →
  scan_update_keys options keys true override_
  = Throw (Err "All update fields must be an update operator").
Proof.
  intros Hstrict Hplain Hin. revert override_.
  induction keys as [|k keys IH]; intros override_; [by apply elem_of_nil in Hin|].
  simpl. rewrite Hstrict.
  destruct (is_modifier_key k) eqn:Hk; simpl; [|done].
  apply IH. apply elem_of_cons in Hin as [->|]; [congruence|done].
Qed.

(** C4 at work: an update document with the plain key first, [{b: 2,
    $set: {c: 3}}], in strict mode.  No error is raised: when the loop
    reaches ["$set"], [hasModifier && !modifier] is false, so the
    document is taken for a list of modifiers and [$set] is applied.
    With the keys the other way round the error is raised. *)
Theorem mixed_keys_accepted :
  let w1 := (run (insert demo_rt (VObj [("_id", VStr "1"); ("a", VNum 1)]))
               empty_world).1 in
  let plain_first := VObj [("b", VNum 2); ("$set", VObj [("c", VNum 3)])] in
  let modifier_first := VObj [("$set", VObj [("c", VNum 3)]); ("b", VNum 2)] in
  let stored := VObj [("_id", VStr "1"); ("a", VNum 1);
                      ("timestamp", VNum 1500000000); ("c", VNum 3)] in
  let r := run (update demo_rt (VObj [("a", VNum 1)]) plain_first strict_options) w1 in
  r.2 = Ok (mkUpdateResult (Some [stored]) 1 None 0) ∧
  docs (coll r.1) = [stored] ∧
  (run (update demo_rt (VObj [("a", VNum 1)]) modifier_first strict_options) w1).2
  = Throw (Err "All update fields must be an update operator").
Proof. repeat split. Qed.

(** ** Remarks *)

(** The branch of [$addToSet] for an absent field stores its argument as
    it is, an [$each] wrapper too; the wrapper is only looked into when
    the field already holds an array. *)
Example each_wrapper_on_absent_field :
  let each := VObj [("$each", VArr [VNum 1; VNum 2])] in
  _applyModifier demo_rt (VObj []) "$addToSet" (VObj [("a", each)])
  = Ok (VObj [("a", VArr [each])]) ∧
  _applyModifier demo_rt (VObj [("a", VArr [each])]) "$addToSet" (VObj [("a", each)])
  = Ok (VObj [("a", VArr [each; VNum 1; VNum 2])]).
Proof. split; reflexivity. Qed.

(** * Further properties *)

(** ** Path resolution under [no_create] *)

Lemma obj_set_same fs k v : obj_get fs k = Some v → obj_set fs k v = fs.
Proof.
  induction fs as [|[k' v'] fs IH]; simpl; [done|].
  destruct (String.eqb k' k) eqn:E.
  - by intros [= ->].
  - intros H. by rewrite IH.
Qed.

Lemma array_index_in_range keypart l :
  has_in (KStr keypart) (VArr l) = Ok true → numeric keypart = true →
  toNumber keypart < length l.
Proof.
  simpl. intros [= Hin] Hnum. rewrite Hnum in Hin. simpl in Hin.
  destruct (String.eqb (pretty (toNumber keypart)) keypart) eqn:E.
  - by apply Nat.ltb_lt.
  - apply String.eqb_eq in Hin. subst. done.
Qed.

(** X1. With [no_create] the walk creates nothing: whatever it returns,
    the document is as it was. *)
Theorem no_create_walk_keeps_document (keyparts : list string) :
  ∀ (doc : value) (forbid_array : bool) (t : ModTarget),
    _findModTarget doc keyparts true forbid_array = Ok t →
    put t (target t) = doc.
Proof.
  induction keyparts as [|keypart rest IH]; intros doc fa t Hwalk.
  { simpl in Hwalk. by injection Hwalk as <-. }
  cbn [_findModTarget] in Hwalk. unfold_result.
  destruct (is_object_type doc) eqn:Hobj; [|by injection Hwalk as <-].
  destruct (has_in (KStr keypart) doc) as [[]|] eqn:Hin; [| |done];
    cbn [negb] in Hwalk; cbv iota beta in Hwalk; [|by injection Hwalk as <-].
  destruct doc as [| | | | | |l|fs]; try done.
  - (* array *)
    destruct fa; [by injection Hwalk as <-|].
    destruct (numeric keypart) eqn:Hnum; [|done]. cbn [negb] in Hwalk.
    cbv iota zeta in Hwalk.
    pose proof (array_index_in_range _ _ Hin Hnum) as Hk.
    replace (toNumber keypart - length l) with 0 in Hwalk by lia.
    cbn [replicate] in Hwalk. rewrite app_nil_r in Hwalk.
    destruct (is_nil_list rest); [by injection Hwalk as <-|].
    replace (length l =? toNumber keypart)%nat with false in Hwalk
      by (symmetry; apply Nat.eqb_neq; lia).
    destruct (is_object_type (arr_get l (toNumber keypart))); [|done].
    destruct (_findModTarget _ rest true false) as [r|] eqn:Hr; [|done].
    injection Hwalk as <-. cbn [put target]. rewrite (IH _ _ _ Hr).
    f_equal. apply list_insert_id. unfold arr_get.
    destruct (l !! toNumber keypart) eqn:Hl; [done|].
    apply lookup_ge_None in Hl. lia.
  - (* object *)
    destruct (is_nil_list rest); [by injection Hwalk as <-|].
    cbn [get_prop key_string] in Hwalk.
    simpl in Hin. injection Hin as Hin. apply bool_decide_eq_true in Hin.
    destruct Hin as [c Hc]. rewrite Hc in Hwalk. cbn [default] in Hwalk. change (id c) with c in Hwalk.
    destruct (_findModTarget c rest true fa) as [r|] eqn:Hr; [|done].
    injection Hwalk as <-. cbn [put target]. rewrite (IH _ _ _ Hr).
    unfold replace_child. simpl. by rewrite obj_set_same.
Qed.

Lemma no_create_walk_keeps_document_witness :
  ∃ t, _findModTarget (VObj [("a", VArr [VObj [("b", VNum 1)]])])
         ["a"; "0"; "b"] true false = Ok t ∧
       target t = VObj [("b", VNum 1)] ∧
       put t (target t) = VObj [("a", VArr [VObj [("b", VNum 1)]])].
Proof.
  eexists. split; [reflexivity|]. split; [reflexivity|].
  apply (no_create_walk_keeps_document ["a"; "0"; "b"] _ false). reflexivity.
Defined.

(** X2. When the walk returns an array, the last segment it hands back is
    a number no greater than the length of that array: a write through
    it replaces an element or appends one, and never leaves a hole. *)
Theorem array_target_numeric_field (keyparts : list string) :
  ∀ (doc : value) (no_create forbid_array : bool) (t : ModTarget) (l : list value),
    _findModTarget doc keyparts no_create forbid_array = Ok t →
    target t = VArr l →
    ∃ k, pop_field (keyparts_out t) = KNum k ∧ (k ≤ length l)%nat.
Proof.
  induction keyparts as [|keypart rest IH]; intros doc nc fa t l Hwalk Ht.
  { simpl in Hwalk. injection Hwalk as <-. done. }
  cbn [_findModTarget] in Hwalk. unfold_result.
  destruct (if nc then _ else _) as [[]|] eqn:Hstop; [| |done];
    cbv iota beta in Hwalk.
  { injection Hwalk as <-. done. }
  assert (Hrec : ∀ r k0, _findModTarget k0 rest nc fa = Ok r →
            target r = VArr l →
            ∃ k, pop_field (KStr keypart :: keyparts_out r) = KNum k ∧ (k ≤ length l)%nat).
  { intros r k0 Hr Htr. destruct (IH _ _ _ _ _ Hr Htr) as (k & Hk & Hle).
    exists k. split; [|done]. unfold pop_field in *.
    destruct (keyparts_out r) as [|a ks]; [done|]. done. }
  destruct doc as [| | | | | |elems|fs].
  7:{ destruct fa; [injection Hwalk as <-; done|].
      destruct (numeric keypart); [|done]. cbn [negb] in Hwalk.
      cbv iota zeta in Hwalk.
      destruct (is_nil_list rest).
      - injection Hwalk as <-. simpl in Ht. injection Ht as <-.
        exists (toNumber keypart). split; [done|].
        rewrite length_app, length_replicate. lia.
      - destruct (if (length _ =? _)%nat then _ else _) as [l2|]; [|done].
        destruct (_findModTarget _ rest nc false) as [r|] eqn:Hr; [|done].
        injection Hwalk as <-. by eapply Hrec. }
  all: destruct (is_nil_list rest);
    [ cbv iota beta in Hwalk; injection Hwalk as <-; done |].
  all: destruct (has_in (KStr keypart) _) as [[]|]; try done;
    cbv iota beta in Hwalk.
  all: repeat match type of Hwalk with
       | context [set_prop ?d ?k ?x] =>
           destruct (set_prop d k x); [|done]; cbv iota beta in Hwalk
       | context [get_prop ?d ?k] =>
           destruct (get_prop d k); [|done]; cbv iota beta in Hwalk
       end.
  all: try (destruct (_findModTarget _ rest nc fa) as [r|] eqn:Hr; [|done];
            injection Hwalk as <-; by eapply Hrec).
Qed.

Lemma array_target_numeric_field_witness :
  ∃ t, _findModTarget (VObj [("a", VArr [VNum 1])]) ["a"; "3"] false false = Ok t ∧
       target t = VArr [VNum 1; VNull; VNull] ∧
       ∃ k, pop_field (keyparts_out t) = KNum k ∧ (k ≤ 3)%nat.
Proof.
  eexists. split; [reflexivity|]. split; [reflexivity|].
  apply (array_target_numeric_field ["a"; "3"]
           (VObj [("a", VArr [VNum 1])]) false false _ [VNum 1; VNull; VNull]);
    reflexivity.
Defined.

(** ** Modifiers on a field of the document *)

Lemma obj_get_del_eq fs k : obj_get (obj_del fs k) k = None.
Proof.
  induction fs as [|[k' v] fs IH]; simpl; [done|].
  destruct (String.eqb k' k) eqn:E; simpl; [done|]. by rewrite E.
Qed.

Lemma obj_get_del_ne fs k k' : k ≠ k' → obj_get (obj_del fs k) k' = obj_get fs k'.
Proof.
  intros Hne. induction fs as [|[k0 v] fs IH]; simpl; [done|].
  destruct (String.eqb k0 k) eqn:E; simpl.
  - apply String.eqb_eq in E. subst k0.
    destruct (String.eqb k k') eqn:E'; [|done]. apply String.eqb_eq in E'. done.
  - by destruct (String.eqb k0 k').
Qed.

Lemma obj_del_absent fs k : obj_get fs k = None → obj_del fs k = fs.
Proof.
  induction fs as [|[k' v] fs IH]; simpl; [done|].
  destruct (String.eqb k' k); [done|]. intros H. by rewrite IH.
Qed.


Section FieldModifiers.

Variable rt : Runtime.

(** A modifier that acts on the target alone, applied to a key without
    dots of an object: the target is the document itself.  Under
    [no_create] the key has to be there. *)
Lemma apply_top_level (f : value → key → value → result value)
    (key k : string) (fs : list (string * value)) (arg : value) :
  has_dot k = false → String.eqb key "$rename" = false →
  (_noCreateModifiers key = true → is_Some (obj_get fs k)) →
  apply_clause (on_target f) key (VObj fs) k arg = f (VObj fs) (KStr k) arg.
Proof.
  intros Hk Hrn Hnc. unfold apply_clause, on_target.
  rewrite (split_on_no_dot _ Hk), Hrn. cbn [_findModTarget is_nil_list].
  destruct (_noCreateModifiers key).
  - destruct (Hnc eq_refl) as [v Hv]. simpl. rewrite Hv. simpl.
    unfold_result. by destruct (f _ _ _).
  - simpl. unfold_result. by destruct (f _ _ _).
Qed.

(** An update document with a single clause. *)
Lemma applyModifier_single (key k : string) (modf : modifier) (arg doc : value) :
  _modifiers rt key = Some modf →
  _applyModifier rt doc key (VObj [(k, arg)]) = apply_clause modf key doc k arg.
Proof.
  intros Hmod. unfold _applyModifier. rewrite Hmod.
  cbn [enum_keys fmap list_fmap fst apply_clauses get_prop key_string obj_get].
  rewrite String.eqb_refl. cbn [default]. unfold_result.
  change (id arg) with arg. by destruct (apply_clause modf key doc k arg).
Qed.

(** [$unset] of a field the document does not have. *)
Lemma unset_absent (k : string) (arg : value) (fs : list (string * value)) :
  has_dot k = false → obj_get fs k = None →
  _applyModifier rt (VObj fs) "$unset" (VObj [(k, arg)]) = Ok (VObj fs).
Proof.
  intros Hk Habsent.
  rewrite (applyModifier_single "$unset" k (on_target mod_unset)) by done.
  unfold apply_clause, on_target.
  rewrite (split_on_no_dot _ Hk).
  replace (_noCreateModifiers "$unset") with true by reflexivity.
  cbn [String.eqb Ascii.eqb Bool.eqb andb _findModTarget]. simpl.
  by rewrite Habsent.
Qed.


(** X4. [{$unset: {k: _}}] on a key without dots never fails: afterwards
    the document has no field [k], and every other field reads as
    before. *)
Theorem unset_removes_field (k : string) (arg : value) (fs : list (string * value)) :
  has_dot k = false →
  ∃ d, _applyModifier rt (VObj fs) "$unset" (VObj [(k, arg)]) = Ok d ∧
       has_in (KStr k) d = Ok false ∧
       ∀ k', k' ≠ k → get_prop d (KStr k') = get_prop (VObj fs) (KStr k').
Proof.
  intros Hk. exists (VObj (obj_del fs k)). split; [|split].
  - destruct (obj_get fs k) as [v|] eqn:Hget.
    + rewrite (applyModifier_single "$unset" k (on_target mod_unset)) by done.
      rewrite (apply_top_level mod_unset "$unset" k fs arg Hk eq_refl) by eauto.
      reflexivity.
    + rewrite (obj_del_absent _ _ Hget). by apply unset_absent.
  - simpl. by rewrite obj_get_del_eq.
  - intros k' Hne. simpl. by rewrite obj_get_del_ne.
Qed.


End FieldModifiers.


Lemma unset_removes_field_witness :
  ∃ d, _applyModifier demo_rt (VObj [("a", VNum 1); ("b", VNum 2)]) "$unset"
         (VObj [("a", VStr "")]) = Ok d ∧
       has_in (KStr "a") d = Ok false ∧
       get_prop d (KStr "b") = Ok (VNum 2).
Proof.
  destruct (unset_removes_field demo_rt "a" (VStr "")
              [("a", VNum 1); ("b", VNum 2)] eq_refl) as (d & Hd & Hin & Hother).
  exists d. split; [exact Hd|]. split; [exact Hin|].
  rewrite (Hother "b"); [reflexivity | discriminate].
Defined.


Section ArrayModifiers.

Variable rt : Runtime.

(** X6. On a field that holds an array, [$push] followed by [$pop] with
    a non-negative argument gives the document back; [$pop] of an empty
    array leaves it empty. *)
Theorem push_then_pop (k : string) (v : value) (n : Z) (l : list value)
    (fs : list (string * value)) :
  has_dot k = false → obj_get fs k = Some (VArr l) → (0 ≤ n)%Z →
  (∃ d, _applyModifier rt (VObj fs) "$push" (VObj [(k, v)]) = Ok d ∧
        get_prop d (KStr k) = Ok (VArr (l ++ [v])) ∧
        _applyModifier rt d "$pop" (VObj [(k, VNum n)]) = Ok (VObj fs)) ∧
  (l = [] → ∀ arg, _applyModifier rt (VObj fs) "$pop" (VObj [(k, arg)]) = Ok (VObj fs)).
Proof.
  intros Hk Hget Hn. split.
  - exists (VObj (obj_set fs k (VArr (l ++ [v])))). split; [|split].
    + rewrite (applyModifier_single rt "$push" k (on_target mod_push)) by done.
      rewrite (apply_top_level mod_push "$push" k fs v Hk eq_refl) by done.
      unfold mod_push. simpl. by rewrite Hget.
    + simpl. by rewrite obj_get_set_eq.
    + rewrite (applyModifier_single rt "$pop" k (on_target mod_pop)) by done.
      rewrite (apply_top_level mod_pop "$pop" k _ (VNum n) Hk eq_refl)
        by (rewrite obj_get_set_eq; eauto).
      unfold mod_pop. simpl. rewrite obj_get_set_eq. simpl.
      replace (n <? 0)%Z with false by (symmetry; apply Z.ltb_ge; lia).
      rewrite length_app. simpl.
      replace (length l + 1 - 1) with (length l) by lia.
      rewrite take_app_length, obj_set_set. by rewrite obj_set_same.
  - intros -> arg.
    rewrite (applyModifier_single rt "$pop" k (on_target mod_pop)) by done.
    rewrite (apply_top_level mod_pop "$pop" k fs arg Hk eq_refl) by eauto.
    unfold mod_pop. simpl. rewrite Hget. simpl.
    destruct (match arg with VNum n0 => (n0 <? 0)%Z | _ => false end);
      simpl; by rewrite obj_set_same.
Qed.

(** X7. On a field that holds an array, [$pushAll] with the array
    [args] does what [$push] does with its elements one after the other:
    the elements are appended in order. *)
Theorem pushAll_as_pushes (k : string) (args l : list value)
    (fs : list (string * value)) :
  has_dot k = false → obj_get fs k = Some (VArr l) →
  _applyModifier rt (VObj fs) "$pushAll" (VObj [(k, VArr args)])
  = Ok (VObj (obj_set fs k (VArr (l ++ args)))) ∧
  apply_each rt "$push" k args (VObj fs)
  = _applyModifier rt (VObj fs) "$pushAll" (VObj [(k, VArr args)]).
Proof.
  intros Hk Hget.
  assert (Hall : _applyModifier rt (VObj fs) "$pushAll" (VObj [(k, VArr args)])
                 = Ok (VObj (obj_set fs k (VArr (l ++ args))))).
  { rewrite (applyModifier_single rt "$pushAll" k (on_target mod_pushAll)) by done.
    rewrite (apply_top_level mod_pushAll "$pushAll" k fs _ Hk eq_refl) by done.
    unfold mod_pushAll. simpl. by rewrite Hget. }
  split; [exact Hall|]. rewrite Hall. clear Hall.
  revert l fs Hget. induction args as [|a args IH]; intros l fs Hget.
  - simpl. by rewrite app_nil_r, obj_set_same.
  - cbn [apply_each].
    rewrite (applyModifier_single rt "$push" k (on_target mod_push)) by done.
    rewrite (apply_top_level mod_push "$push" k fs a Hk eq_refl) by done.
    unfold mod_push. simpl. rewrite Hget. simpl.
    rewrite (IH (l ++ [a])) by (by rewrite obj_get_set_eq).
    by rewrite obj_set_set, <- app_assoc.
Qed.

(** X8. [$pull] on a field that holds an array keeps, in their order,
    exactly the elements that do not match: those that do not equal a
    plain argument, or that the compiled argument rejects when it is an
    object. *)
Theorem pull_keeps_the_rest (k : string) (arg : value) (l : list value)
    (fs : list (string * value)) :
  has_dot k = false → obj_get fs k = Some (VArr l) →
  (is_object_type arg && negb (is_array arg) = false →
   ∃ l', _applyModifier rt (VObj fs) "$pull" (VObj [(k, arg)])
         = Ok (VObj (obj_set fs k (VArr l'))) ∧
         l' `sublist_of` l ∧
         ∀ e, e ∈ l' ↔ e ∈ l ∧ equal rt e arg = false) ∧
  (∀ matches, is_object_type arg && negb (is_array arg) = true →
     _compileSelector rt arg = Ok matches →
   ∃ l', _applyModifier rt (VObj fs) "$pull" (VObj [(k, arg)])
         = Ok (VObj (obj_set fs k (VArr l'))) ∧
         l' `sublist_of` l ∧
         ∀ e, e ∈ l' ↔ e ∈ l ∧ matches e = false).
Proof.
  intros Hk Hget.
  assert (Hfilter : ∀ (p : value → bool) e,
            e ∈ List.filter (λ x, negb (p x)) l ↔ e ∈ l ∧ p e = false).
  { intros p e. rewrite !list_elem_of_In, filter_In, negb_true_iff. done. }
  assert (Hsub : ∀ (p : value → bool), List.filter p l `sublist_of` l).
  { intros p. clear Hget Hfilter. induction l as [|x l' IH]; simpl; [done|].
    destruct (p x); by constructor. }
  split.
  - intros Harg. eexists. split; [|split; [apply Hsub | apply Hfilter]].
    rewrite (applyModifier_single rt "$pull" k (on_target (mod_pull rt))) by done.
    rewrite (apply_top_level (mod_pull rt) "$pull" k fs _ Hk eq_refl) by eauto.
    unfold mod_pull. simpl. rewrite Hget. simpl. by rewrite Harg.
  - intros matches Harg Hsel. eexists. split; [|split; [apply Hsub | apply Hfilter]].
    rewrite (applyModifier_single rt "$pull" k (on_target (mod_pull rt))) by done.
    rewrite (apply_top_level (mod_pull rt) "$pull" k fs _ Hk eq_refl) by eauto.
    unfold mod_pull. simpl. rewrite Hget. simpl. rewrite Harg. unfold_result.
    by rewrite Hsel.
Qed.

End ArrayModifiers.

(** ** More on [insert] *)

Section InsertMore.

Variable rt : Runtime.

Lemma insert_rejects fields w :
  ¬ acceptable_id (default VUndef (obj_get fields "_id")) →
  (run (insert rt (VObj fields)) w).2
  = Throw (TypeError "_doc._id.replace is not a function").
Proof.
  set (id0 := default VUndef (obj_get fields "_id")). intros Hid.
  assert (Hget : default VUndef (obj_get fields "_id") = id0) by done.
  clearbody id0. unfold insert, cloneDeep. simpl. rewrite Hget.
  destruct id0 as [| |[]| | | | |]; simpl in *; try tauto; rewrite ?Hget; done.
Qed.

(** X9. [insert] succeeds exactly on an object whose [_id] is a number,
    a string or falsy; when it fails, the documents, the index and the
    calls made on the stores are as before. *)
Theorem insert_succeeds_iff (doc : value) (w : World) :
  (is_ok (run (insert rt doc) w).2 = true ↔
   ∃ fields, doc = VObj fields ∧
             acceptable_id (default VUndef (obj_get fields "_id"))) ∧
  (is_ok (run (insert rt doc) w).2 = false →
   coll (run (insert rt doc) w).1 = coll w ∧
   deliveries (run (insert rt doc) w).1 = deliveries w).
Proof.
  split.
  - split.
    + intros Hok. destruct doc as [| | | | | | |fields]; try done.
      exists fields. split; [done|].
      destruct (default VUndef (obj_get fields "_id")) as [| |[]| | | | |] eqn:Hid;
        try done; exfalso;
        rewrite insert_rejects in Hok by (rewrite Hid; simpl; tauto); done.
    + intros (fields & -> & Hid). by rewrite (insert_ok rt fields w Hid).
  - intros Hfail. destruct (insert_cases rt doc w) as [[e He]|[d [Hd _]]].
    + by rewrite He.
    + by rewrite Hd in Hfail.
Qed.

(** X10. Round trip through the index: right after a successful
    [insert], the index maps the [_id] of the stored copy to the position
    of the copy, which is the last one. *)
Theorem insert_then_indexed (fields : list (string * value)) (w : World) :
  acceptable_id (default VUndef (obj_get fields "_id")) →
  ∃ d id,
    (run (insert rt (VObj fields)) w).2 = Ok d ∧
    get_prop d (KStr "_id") = Ok id ∧
    doc_indexes (coll (run (insert rt (VObj fields)) w).1) !! to_property_key id
    = Some (length (docs (coll w))) ∧
    docs (coll (run (insert rt (VObj fields)) w).1) !! length (docs (coll w))
    = Some d.
Proof.
  intros Hid. rewrite (insert_ok rt fields w Hid). cbv zeta.
  set (digits := provided_id_digits _).
  set (id := if String.eqb digits "" then VOid _ else VStr digits).
  eexists _, id. split; [reflexivity|]. split; [by rewrite inserted_fields|].
  simpl. split.
  - replace (lodash_toString id) with (to_property_key id)
      by (unfold id; by destruct (String.eqb digits "")).
    by rewrite lookup_insert_eq.
  - by rewrite lookup_app_r, Nat.sub_diag.
Qed.


End InsertMore.

Lemma insert_then_indexed_witness :
  let w' := (run (insert demo_rt (VObj [("_id", VStr "a-42")])) empty_world).1 in
  doc_indexes (coll w') !! "42" = Some 0 ∧
  docs (coll w') !! 0
  = Some (VObj [("_id", VStr "42"); ("timestamp", VNum 1500000000)]).
Proof.
  destruct (insert_then_indexed demo_rt [("_id", VStr "a-42")] empty_world I)
    as (d & id & Hd & Hid & Hidx & Hdoc).
  vm_compute in Hd. injection Hd as <-. vm_compute in Hid. injection Hid as <-.
  split; [exact Hidx | exact Hdoc].
Defined.


Lemma insert_succeeds_iff_witness :
  coll (run (insert demo_rt (VObj [("_id", VBool true)])) empty_world).1
  = coll empty_world.
Proof.
  destruct (insert_succeeds_iff demo_rt (VObj [("_id", VBool true)]) empty_world)
    as [_ Hfail].
  destruct (Hfail eq_refl) as [Hcoll _].
  exact Hcoll.
Defined.

(** ** More on [update] *)

Section UpdateMore.

Variable rt : Runtime.

(** X12. An [update] that matches nothing and has no [upsert] reports
    zero documents and changes nothing; the stores only hear of the
    query. *)
Theorem update_without_match (selection update_doc : value)
    (options : UpdateOptions) (w : World) (matches : value → bool) :
  upsert options = false →
  _compileSelector rt (selection_document selection) = Ok matches →
  List.filter matches (docs (coll w)) = [] →
  run (update rt selection update_doc options) w
  = (queried rt w options, Ok (mkUpdateResult None 0 None 0)).
Proof.
  intros Hupsert Hsel Hnone. unfold update.
  rewrite run_bind, update_targets_run, Hsel.
  unfold unlimited_cursor, default_cursor.
  rewrite !no_match_no_target by done.
  replace (if multi options then [] else []) with (@nil value)
    by (by destruct (multi options)).
  by rewrite Hupsert.
Qed.

(** X13. In strict mode an update document whose first key is not an
    operator cannot be used with [multi]: as soon as a document matches,
    [update] fails, before any document is written. *)
Theorem strict_multi_replacement_rejected (selection : value)
    (k : string) (v : value) (more : list (string * value))
    (options : UpdateOptions) (w : World) (matches : value → bool) :
  updateAsMongo options = true → multi options = true →
  is_modifier_key k = false →
  _compileSelector rt (selection_document selection) = Ok matches →
  List.filter matches (docs (coll w)) ≠ [] →
  run (update rt selection (VObj ((k, v) :: more)) options) w
  = (queried rt w options,
     Throw (Err "You can not update several documents when no update operators are included")).
Proof.
  intros Hstrict Hmulti Hk Hsel Hsome. unfold update. cbn [isNil].
  rewrite run_bind, update_targets_run, Hsel, Hmulti.
  unfold cursor_fetch, unlimited_cursor. cbn [cur_skip cur_matches cur_limit drop].
  destruct (List.filter matches (docs (coll w))) as [|d ds]; [done|].
  change (drop 0 (d :: ds)) with (d :: ds). cbv iota beta. rewrite run_bind, update_loop_cons.
  unfold updated_document. cbn [enum_keys fmap list_fmap fst scan_update_keys].
  by rewrite Hstrict, Hk, Hmulti.
Qed.

Lemma store_document_index d w :
  doc_indexes (coll (run (store_document d) w).1) = doc_indexes (coll w).
Proof.
  unfold store_document. rewrite run_bind. simpl.
  destruct (get_prop d (KStr "_id")) as [id|e]; simpl; [|done].
  by destruct (doc_indexes (coll w) !! to_property_key id).
Qed.

Lemma update_loop_index update options matched : ∀ acc w,
  doc_indexes (coll (run (update_loop rt update options matched acc) w).1)
  = doc_indexes (coll w).
Proof.
  induction matched as [|doc more IH]; intros acc w; [done|].
  rewrite update_loop_cons.
  destruct (updated_document rt update options doc) as [u|e]; [|done].
  pose proof (store_document_index u w) as Hs.
  destruct (run (store_document u) w) as [w1 [[]|e]]; simpl in *; [|done].
  by rewrite IH.
Qed.

(** X14. Unless it inserts, [update] never touches the id index, whether
    it succeeds or fails: documents are rewritten in place. *)
Theorem update_keeps_index_map (selection update_doc : value)
    (options : UpdateOptions) (w : World) :
  upsert options = false →
  doc_indexes (coll (run (update rt selection update_doc options) w).1)
  = doc_indexes (coll w).
Proof.
  intros Hupsert. unfold update. rewrite run_bind, update_targets_run.
  destruct (_compileSelector rt (selection_document selection)) as [matches|e];
    [|done].
  set (targets := if multi options then _ else _). clearbody targets.
  destruct targets as [|d1 more].
  - by rewrite Hupsert.
  - rewrite run_bind.
    pose proof (update_loop_index (if isNil update_doc then VArr [] else update_doc)
                  options (d1 :: more) [] (queried rt w options)) as Hidx.
    destruct (run (update_loop rt _ options (d1 :: more) []) _) as [w2 [us|e]];
      simpl in *; done.
Qed.



End UpdateMore.

(** ** More on [remove] and [_emit] *)

Section RemoveMore.

Variable rt : Runtime.

Lemma remove_document_run doc w :
  run (remove_document doc) w
  = match get_prop doc (KStr "_id") with
    | Ok id =>
        (mkWorld
           (mkCollection
              (delete (default 0 (doc_indexes (coll w) !! to_property_key id))
                 (docs (coll w)))
              (delete (to_property_key id) (doc_indexes (coll w))))
           (oid_count w) (deliveries w), Ok ())
    | Throw e => (w, Throw e)
    end.
Proof.
  unfold remove_document. rewrite run_bind. simpl.
  by destruct (get_prop doc (KStr "_id")).
Qed.

Lemma remove_loop_spec matched : ∀ w,
  docs (coll (run (remove_loop matched) w).1) `sublist_of` docs (coll w) ∧
  (∀ key, doc_indexes (coll w) !! key = None →
          doc_indexes (coll (run (remove_loop matched) w).1) !! key = None) ∧
  ((run (remove_loop matched) w).2 = Ok () →
   ∀ d id, d ∈ matched → get_prop d (KStr "_id") = Ok id →
     doc_indexes (coll (run (remove_loop matched) w).1) !! to_property_key id = None).
Proof.
  induction matched as [|doc more IH]; intros w.
  { simpl. split; [done|]. split; [done|]. by intros _ d id ?%elem_of_nil. }
  cbn [remove_loop]. rewrite run_bind, remove_document_run.
  destruct (get_prop doc (KStr "_id")) as [id0|e] eqn:Hid0.
  2:{ simpl. split; [done|]. split; [done|]. done. }
  set (w1 := mkWorld _ _ _).
  destruct (IH w1) as (Hsub & Hnone & Hgone).
  split; [|split].
  - etrans; [exact Hsub|]. apply sublist_delete.
  - intros key Hkey. apply Hnone. simpl.
    destruct (decide (to_property_key id0 = key)) as [->|Hne].
    + apply lookup_delete_eq.
    + by rewrite lookup_delete_ne.
  - intros Hok d id [->|Hd]%elem_of_cons Hid.
    + rewrite Hid0 in Hid. injection Hid as <-. apply Hnone. simpl.
      apply lookup_delete_eq.
    + by eapply Hgone.
Qed.

(** X16. [remove] only takes documents out: what stays in [docs] is a
    sublist of what was there, in the same order, and when [remove]
    returns, the [_id] of every document it returns is no longer in the
    index. *)
Theorem remove_unindexes (selection : value) (w : World) :
  docs (coll (run (remove rt selection) w).1) `sublist_of` docs (coll w) ∧
  ∀ removed d id,
    (run (remove rt selection) w).2 = Ok removed →
    d ∈ removed → get_prop d (KStr "_id") = Ok id →
    doc_indexes (coll (run (remove rt selection) w).1) !! to_property_key id = None.
Proof.
  unfold remove, find. rewrite !run_bind. simpl.
  destruct (_compileSelector rt (selection_document selection)) as [matches|e];
    simpl; [|done].
  set (w1 := mkWorld _ _ _).
  set (matched := cursor_fetch (default_cursor matches) (coll w)).
  destruct (remove_loop_spec matched w1) as (Hsub & _ & Hgone).
  destruct (run (remove_loop matched) w1) as [w2 [[]|e]]; simpl in *.
  - split; [done|]. intros removed d id [= <-] Hd Hid. by eapply Hgone.
  - done.
Qed.

(** X17. A [remove] that matches nothing returns the empty list and
    leaves the collection as it is; the stores are told of the query and
    of a removal of no document. *)
Theorem remove_without_match (selection : value) (w : World)
    (matches : value → bool) :
  _compileSelector rt (selection_document selection) = Ok matches →
  List.filter matches (docs (coll w)) = [] →
  run (remove rt selection) w
  = (mkWorld (coll w) (oid_count w)
       ((deliveries w ++ emitted_by rt "find" [] (coll w))
        ++ emitted_by rt "remove" [] (coll w)),
     Ok []).
Proof.
  intros Hsel Hnone. unfold remove, find. rewrite !run_bind. simpl.
  rewrite Hsel. simpl. unfold default_cursor.
  by rewrite no_match_no_target.
Qed.

(** X18. The calls [_emit] makes for an event are exactly these: on
    each store that has a handler for the event, that handler; on each
    store that has none but has [all], the handler [all]; every call
    carries the event.  A store with neither is not called. *)
Theorem emit_reaches_handlers (name : string) (payload : list value)
    (c : Collection) (d : Delivery) :
  d ∈ emitted_by rt name payload c ↔
  ∃ store, _stores rt !! dl_store d = Some store ∧
           (dl_event d = mkEvent name c payload) ∧
           ((name ∈ store_handlers store ∧ dl_handler d = name) ∨
            ((name ∉ store_handlers store) ∧ store_all store = true ∧
             dl_handler d = "all")).
Proof.
  unfold emitted_by.
  assert (Hgen : ∀ (stores : list Store) (off : nat),
    d ∈ concat (imap (λ i, deliver_to (mkEvent name c payload) (off + i)) stores) ↔
    ∃ store i, stores !! i = Some store ∧ dl_store d = off + i ∧
           (dl_event d = mkEvent name c payload) ∧
           ((name ∈ store_handlers store ∧ dl_handler d = name) ∨
            ((name ∉ store_handlers store) ∧ store_all store = true ∧
             dl_handler d = "all"))).
  { induction stores as [|s stores IH]; intros off.
    - simpl. split; [by intros ?%elem_of_nil | by intros (? & ? & ? & _)].
    - cbn [imap concat]. rewrite elem_of_app.
      assert (Hrest : ∀ i, (off + S i) = (S off + i)) by (intros; lia).
      rewrite (imap_ext _ (λ i, deliver_to (mkEvent name c payload) (S off + i)))
        by (intros; simpl; by rewrite Hrest).
      rewrite (IH (S off)). split.
      + intros [Hd|(store & i & Hi & Hs & He & Hh)].
        * exists s, 0. split; [done|]. unfold deliver_to in Hd. simpl in Hd.
          rewrite Nat.add_0_r in *.
          destruct (decide (name ∈ store_handlers s)) as [Hin|Hin].
          -- rewrite bool_decide_eq_true_2 in Hd by done.
             apply list_elem_of_singleton in Hd. subst d. simpl. auto.
          -- rewrite bool_decide_eq_false_2 in Hd by done.
             destruct (store_all s) eqn:Hall; [|by apply elem_of_nil in Hd].
             apply list_elem_of_singleton in Hd. subst d. simpl. auto 6.
        * exists store, (S i). split; [done|]. split; [lia|]. done.
      + intros (store & [|i] & Hi & Hs & He & Hh).
        * left. simpl in Hi. injection Hi as ->. unfold deliver_to. simpl.
          rewrite Nat.add_0_r in *.
          destruct d as [ds dh de]. simpl in *. subst ds de.
          destruct Hh as [[Hin ->]|(Hin & Hall & ->)].
          -- rewrite bool_decide_eq_true_2 by done. apply list_elem_of_singleton. done.
          -- rewrite bool_decide_eq_false_2, Hall by done.
             apply list_elem_of_singleton. done.
        * right. exists store, i. split; [done|]. split; [lia|]. done. }
  specialize (Hgen (_stores rt) 0). simpl in Hgen.
  rewrite Hgen. split.
  - intros (store & i & Hi & -> & He & Hh). by exists store.
  - intros (store & Hi & He & Hh). by exists store, (dl_store d).
Qed.

End RemoveMore.

(** ** Names *)

Lemma contains_absent_char a p s :
  a ∉ list_ascii_of_string s → contains (String a p) s = false.
Proof.
  induction s as [|b s IH]; simpl; [done|].
  intros Hin. apply not_elem_of_cons in Hin as [Hne Hin].
  rewrite (IH Hin), orb_false_r.
  destruct (Ascii.eqb a b) eqn:E; [|done]. apply Ascii.eqb_eq in E. done.
Qed.

Lemma contains_char a s :
  contains (String a "") s = true ↔ a ∈ list_ascii_of_string s.
Proof.
  induction s as [|b s IH]; simpl.
  - split; [done | by intros ?%elem_of_nil].
  - rewrite elem_of_cons, <- IH, orb_true_iff, andb_true_r.
    split; (intros [H|H]; [left|right; done]).
    + by apply Ascii.eqb_eq.
    + by apply Ascii.eqb_eq.
Qed.

Lemma ends_with_absent_char a s :
  a ∉ list_ascii_of_string s → ends_with_char a s = false.
Proof.
  induction s as [|b s IH]; simpl; [done|].
  intros Hin. apply not_elem_of_cons in Hin as [Hne Hin].
  destruct s as [|b' s'].
  - destruct (Ascii.eqb b a) eqn:E; [|done]. apply Ascii.eqb_eq in E. done.
  - by apply IH.
Qed.

(** X19. A non-empty name without ['.'] and without ['$'] is a valid
    collection name. *)
Theorem plain_collection_name_accepted (s : string) :
  s ≠ "" →
  "."%char ∉ list_ascii_of_string s → "$"%char ∉ list_ascii_of_string s →
  checkCollectionName (VStr s) = Ok ().
Proof.
  intros Hne Hdot Hdollar. unfold checkCollectionName.
  apply String.eqb_neq in Hne. rewrite Hne.
  rewrite (contains_absent_char "." "." s Hdot).
  rewrite (contains_absent_char "$" "" s Hdollar).
  rewrite (ends_with_absent_char "." s Hdot).
  assert (Hstart : starts_with "." s = false).
  { clear Hne. destruct s as [|c0 s']; [done|]. cbn [starts_with].
    apply not_elem_of_cons in Hdot as [Hc0 _].
    destruct (Ascii.eqb "." c0) eqn:E; [|done]. apply Ascii.eqb_eq in E. done. }
  by rewrite Hstart.
Qed.

Lemma plain_collection_name_accepted_witness :
  checkCollectionName (VStr "users_2016") = Ok ().
Proof.
  apply plain_collection_name_accepted.
  - discriminate.
  - vm_compute. intros H. repeat (apply elem_of_cons in H as [H|H]; [discriminate|]).
    by apply elem_of_nil in H.
  - vm_compute. intros H. repeat (apply elem_of_cons in H as [H|H]; [discriminate|]).
    by apply elem_of_nil in H.
Defined.

(** X20. A database name is valid exactly when it is a non-empty string
    none of whose characters is a space, ['.'], ['$'], ['/'] or ['\']. *)
Theorem database_name_valid_iff (s : string) :
  _validateDatabaseName (VStr s) = Ok true ↔
  s ≠ "" ∧
  ∀ c, c ∈ list_ascii_of_string s →
       c ∉ [" "%char; "."%char; "$"%char; "/"%char; "\"%char].
Proof.
  unfold _validateDatabaseName.
  assert (Hlen : (String.length s =? 0)%nat = true ↔ s = "").
  { rewrite Nat.eqb_eq. destruct s; simpl; split; done. }
  destruct (String.length s =? 0)%nat eqn:El.
  { split; [done|]. intros [Hne _]. destruct Hne. by apply Hlen. }
  assert (Hne : s ≠ "") by (intros H; apply Hlen in H; done).
  unfold invalidChars. cbn [first_invalid].
  repeat match goal with
  | |- context [contains (String ?a "") s] =>
      let E := fresh "E" in
      destruct (contains (String a "") s) eqn:E;
      [ split; [done|]; intros [_ Hall]; apply contains_char in E;
        destruct (Hall _ E); repeat first [ by left | right ]
      | ]
  end.
  split; [|done]. intros _. split; [done|].
  intros c Hc Hbad.
  repeat (apply elem_of_cons in Hbad as [->|Hbad];
          [apply contains_char in Hc; congruence|]).
  by apply elem_of_nil in Hbad.
Qed.

(** ** The registry of collections *)

Lemma prop_get_set_eq {A} (obj : list (string * A)) k x :
  prop_get (prop_set obj k x) k = Some x.
Proof.
  induction obj as [|[k' v] obj IH]; simpl.
  - by rewrite String.eqb_refl.
  - destruct (String.eqb k' k) eqn:E; simpl; rewrite E; auto.
Qed.

Lemma prop_get_set_ne {A} (obj : list (string * A)) k k' x :
  k ≠ k' → prop_get (prop_set obj k x) k' = prop_get obj k'.
Proof.
  intros Hne. induction obj as [|[k0 v] obj IH]; simpl.
  - destruct (String.eqb k k') eqn:E; [|done]. apply String.eqb_eq in E. done.
  - destruct (String.eqb k0 k) eqn:E; simpl.
    + apply String.eqb_eq in E. subst k0.
      destruct (String.eqb k k') eqn:E'; [|done]. apply String.eqb_eq in E'. done.
    + destruct (String.eqb k0 k'); auto.
Qed.

Lemma prop_get_del_eq {A} (obj : list (string * A)) k :
  prop_get (prop_del obj k) k = None.
Proof.
  induction obj as [|[k' v] obj IH]; simpl; [done|].
  destruct (String.eqb k' k) eqn:E; simpl; [done|]. by rewrite E.
Qed.

Lemma prop_get_del_ne {A} (obj : list (string * A)) k k' :
  k ≠ k' → prop_get (prop_del obj k) k' = prop_get obj k'.
Proof.
  intros Hne. induction obj as [|[k0 v] obj IH]; simpl; [done|].
  destruct (String.eqb k0 k) eqn:E; simpl.
  - apply String.eqb_eq in E. subst k0.
    destruct (String.eqb k k') eqn:E'; [|done]. apply String.eqb_eq in E'. done.
  - by destruct (String.eqb k0 k').
Qed.

Lemma prop_del_absent {A} (obj : list (string * A)) k :
  prop_get obj k = None → prop_del obj k = obj.
Proof.
  induction obj as [|[k' v] obj IH]; simpl; [done|].
  destruct (String.eqb k' k); [done|]. intros H. by rewrite IH.
Qed.




Lemma database_name_valid_iff_witness :
  _validateDatabaseName (VStr "my db") ≠ Ok true.
Proof.
  intros H. apply database_name_valid_iff in H as [_ Hall].
  apply (Hall " "%char).
  - vm_compute. right. right. left.
  - left.
Defined.

(** ** The database *)

Lemma new_Collection_ok databaseName collectionName c :
  new_Collection databaseName collectionName = Ok c →
  ∃ s, collectionName = VStr s ∧ checkCollectionName (VStr s) = Ok () ∧
       c = mkCollectionObject databaseName s (databaseName +:+ "." +:+ s)
             (mkCollection [] ∅).
Proof.
  unfold new_Collection.
  destruct collectionName as [| | | |s| | |]; try done.
  cbn [isNil]. unfold_result.
  destruct (checkCollectionName (VStr s)) as [[]|] eqn:Hcheck; [|done].
  intros [= <-]. by exists s.
Qed.


(** X23. A database starts with no collection, and [collection] and
    [dropCollection] keep its registry in order: every collection is
    registered under its own name, which is a valid one, and its full
    name is the name of the database, a dot and that name. *)
Theorem registry_kept (db : MongoPortable) (collectionName : value) :
  (∀ connections databaseName id connections',
     new_MongoPortable connections databaseName id = Ok (db, connections') →
     registry_inv db) ∧
  (registry_inv db → registry_inv (db_after (collection db collectionName))) ∧
  (registry_inv db → registry_inv (db_after (dropCollection db collectionName))).
Proof.
  split; [|split].
  - intros connections dbn id connections'. unfold new_MongoPortable. unfold_result.
    destruct (_validateDatabaseName dbn); [|done].
    destruct (connections !! to_property_key dbn); [done|].
    intros [= <- _] k c. done.
  - intros Hinv. unfold collection.
    destruct (prop_get (_collections db) (to_property_key collectionName))
      as [c0|] eqn:Hc0; [done|].
    destruct (new_Collection (databaseName db) collectionName) as [c1|] eqn:Hnew;
      [|done].
    apply new_Collection_ok in Hnew as (s & -> & Hcheck & ->).
    intros k c. simpl.
    destruct (decide (s = k)) as [<-|Hne].
    + rewrite prop_get_set_eq. by intros [= <-].
    + rewrite prop_get_set_ne by done. apply Hinv.
  - intros Hinv. unfold dropCollection.
    destruct (prop_get (_collections db) (to_property_key collectionName))
      as [c0|] eqn:Hc0; [|done].
    intros k c. simpl.
    destruct (decide (to_property_key collectionName = k)) as [<-|Hne].
    + by rewrite prop_get_del_eq.
    + rewrite prop_get_del_ne by done. apply Hinv.
Qed.



(** ** [save] *)

Section Save.

Variable rt : Runtime.

Lemma save_run obj w :
  run (save rt obj) w
  = match get_prop obj (KStr "_id") with
    | Throw e => (w, Throw e)
    | Ok id =>
        match get_prop (VArr (docs (coll w))) (KStr (to_property_key id)) with
        | Throw e => (w, Throw e)
        | Ok slot =>
            if truthy slot
            then match run (update rt (VObj [("_id", id)]) (VArr []) default_options) w with
                 | (w', Ok _) => (w', Ok ())
                 | (w', Throw e) => (w', Throw e)
                 end
            else match run (insert rt obj) w with
                 | (w', Ok _) => (w', Ok ())
                 | (w', Throw e) => (w', Throw e)
                 end
        end
    end.
Proof.
  unfold save. rewrite run_bind. unfold lift at 1. cbn [run].
  destruct (get_prop obj (KStr "_id")) as [id|e]; [|done].
  rewrite run_bind. unfold get_coll at 1. cbn [run].
  rewrite run_bind. unfold lift at 1. cbn [run].
  destruct (get_prop (VArr _) _) as [slot|e]; [|done].
  destruct (truthy slot); rewrite run_bind.
  - by destruct (run (update _ _ _ _) w) as [w' [r|e]].
  - by destruct (run (insert _ _) w) as [w' [r|e]].
Qed.

Lemma store_document_same d i w :
  index_inv (coll w) → docs (coll w) !! i = Some d →
  run (store_document d) w = (w, Ok ()).
Proof.
  intros Hinv Hd. destruct (Hinv i d Hd) as (id & Hid & Hidx).
  unfold store_document. rewrite run_bind. simpl. rewrite Hid. simpl.
  rewrite Hidx. simpl. unfold arr_set.
  replace (i <? length (docs (coll w)))%nat with true
    by (symmetry; apply Nat.ltb_lt; by eapply lookup_lt_Some).
  rewrite list_insert_id by done. by destruct w as [[] ? ?].
Qed.

(** An update with an empty update document and no flag leaves the
    collection as it is. *)
Lemma empty_update_keeps_collection selection w :
  index_inv (coll w) →
  Forall (λ d, is_array d = false) (docs (coll w)) →
  coll (run (update rt selection (VArr []) default_options) w).1 = coll w.
Proof.
  intros Hinv Harr. unfold update. cbn [isNil].
  rewrite run_bind, update_targets_run.
  destruct (_compileSelector rt _) as [matches|e]; [|done].
  cbn [multi default_options].
  destruct (cursor_fetch (default_cursor matches) (coll w)) as [|d ds] eqn:Hfetch;
    [done|].
  assert (Hd : d ∈ docs (coll w)).
  { apply (cursor_fetch_stored (default_cursor matches)). rewrite Hfetch. left. }
  apply list_elem_of_lookup in Hd as [i Hi].
  rewrite Forall_forall in Harr.
  assert (Hnotarr : is_array d = false)
    by (apply Harr; apply list_elem_of_lookup; eauto).
  assert (Hrun : run (update_loop rt (VArr []) default_options [d] [])
                   (queried rt w default_options)
                 = (queried rt w default_options, Ok [d])).
  { rewrite update_loop_cons.
    replace (updated_document rt (VArr []) default_options d) with (Ok d)
      by reflexivity.
    by rewrite (store_document_same d i (queried rt w default_options)). }
  destruct d; try done; cbv iota; rewrite run_bind, Hrun; done.
Qed.

Lemma insert_appends doc w :
  ∃ added, docs (coll (run (insert rt doc) w).1) = docs (coll w) ++ added.
Proof.
  destruct (insert_cases rt doc w) as [[e He]|[d [Hd _]]].
  - exists []. rewrite He. cbn. by rewrite app_nil_r.
  - destruct doc as [| | | | | | |fields]; try done.
    set (id0 := default VUndef (obj_get fields "_id")).
    assert (Hid : acceptable_id id0 ∨ ¬ acceptable_id id0).
    { destruct id0 as [| |[]| | | | |]; simpl; auto. }
    destruct Hid as [Hid|Hid].
    + rewrite (insert_ok rt fields w Hid). cbn. eauto.
    + by rewrite (insert_rejects rt fields w Hid) in Hd.
Qed.

(** X26. [save] never writes the object it is given over a stored
    document.  Over an index in step with the documents it leaves every
    stored document where it was and as it was: all it can do is append. *)
Theorem save_only_appends (obj : value) (w : World) :
  index_inv (coll w) →
  Forall (λ d, is_array d = false) (docs (coll w)) →
  ∃ added, docs (coll (run (save rt obj) w).1) = docs (coll w) ++ added.
Proof.
  intros Hinv Harr. rewrite save_run.
  destruct (get_prop obj (KStr "_id")) as [id|e];
    [|exists []; by rewrite app_nil_r].
  destruct (get_prop (VArr _) _) as [slot|e];
    [|exists []; by rewrite app_nil_r].
  destruct (truthy slot).
  - exists []. rewrite app_nil_r.
    pose proof (empty_update_keeps_collection (VObj [("_id", id)]) w Hinv Harr) as Hu.
    destruct (run (update _ _ _ _) w) as [w' [r|e]]; simpl in *; by rewrite Hu.
  - destruct (insert_appends obj w) as [added Ha]. exists added.
    by destruct (run (insert _ _) w) as [w' [r|e]].
Qed.

End Save.

Lemma save_only_appends_witness :
  let w1 := (run (insert demo_rt (VObj [("_id", VStr "0"); ("a", VNum 1)]))
               empty_world).1 in
  ∃ added,
    docs (coll (run (save demo_rt (VObj [("_id", VStr "0"); ("a", VNum 2)])) w1).1)
    = docs (coll w1) ++ added.
Proof.
  intros w1.
  apply (save_only_appends demo_rt (VObj [("_id", VStr "0"); ("a", VNum 2)]) w1).
  - intros i d Hd. destruct i as [|i]; [|done]. injection Hd as <-.
    eexists. split; reflexivity.
  - repeat constructor.
Defined.

Section SetModifiers.

Variable rt : Runtime.

Lemma foldl_add_missing values : ∀ l,
  ∃ l', foldl (add_missing rt) l values = l ++ l' ∧
        l' `sublist_of` values ∧
        ∀ v, v ∈ values →
             v ∈ l ++ l' ∨ ∃ e, e ∈ l ++ l' ∧ equal rt v e = true.
Proof.
  induction values as [|v vs IH]; intros l.
  - exists []. split; [by rewrite app_nil_r|]. split; [done|].
    intros v Hv. by apply elem_of_nil in Hv.
  - cbn [foldl]. unfold add_missing at 2.
    destruct (existsb (equal rt v) l) eqn:Hex.
    + destruct (IH l) as (l' & Heq & Hsub & Hin). exists l'.
      split; [done|]. split; [by apply sublist_cons|].
      intros v' Hv'. apply elem_of_cons in Hv' as [->|Hv']; [|by apply Hin].
      right. apply existsb_exists in Hex as (e & He & Hve).
      exists e. split; [|done]. apply elem_of_app. left. by apply list_elem_of_In.
    + destruct (IH (l ++ [v])) as (l' & Heq & Hsub & Hin). exists (v :: l').
      rewrite Heq, <- app_assoc. split; [done|]. split; [by apply sublist_skip|].
      intros v' Hv'. rewrite <- app_assoc in Hin.
      apply elem_of_cons in Hv' as [->|Hv']; [|by apply Hin].
      left. apply elem_of_app. right. left.
Qed.

(** X27. [$addToSet] with [$each] on a field that holds an array only
    appends: the array it had is the beginning of the new one, what comes
    after is taken from the listed values in their order, and every
    listed value is in the new array or equal to an element of it. *)
Theorem addToSet_each_extends (k : string) (values l : list value)
    (fs : list (string * value)) :
  has_dot k = false → obj_get fs k = Some (VArr l) →
  ∃ added,
    _applyModifier rt (VObj fs) "$addToSet"
      (VObj [(k, VObj [("$each", VArr values)])])
    = Ok (VObj (obj_set fs k (VArr (l ++ added)))) ∧
    added `sublist_of` values ∧
    ∀ v, v ∈ values →
         v ∈ l ++ added ∨ ∃ e, e ∈ l ++ added ∧ equal rt v e = true.
Proof.
  intros Hk Hget.
  destruct (foldl_add_missing values l) as (added & Heq & Hsub & Hin).
  exists added. split; [|done].
  rewrite (applyModifier_single rt "$addToSet" k (on_target (mod_addToSet rt)))
    by done.
  rewrite (apply_top_level (mod_addToSet rt) "$addToSet" k fs _ Hk eq_refl) by done.
  unfold mod_addToSet. simpl. rewrite Hget. simpl. by rewrite Heq.
Qed.

(** X28. [$pullAll] on a field that holds an array keeps, in their
    order, exactly the elements equal to none of the listed values; with
    one listed value that is not an object it does what [$pull] does with
    that value. *)
Theorem pullAll_keeps_the_rest (k : string) (args l : list value)
    (fs : list (string * value)) :
  has_dot k = false → obj_get fs k = Some (VArr l) →
  (∃ l', _applyModifier rt (VObj fs) "$pullAll" (VObj [(k, VArr args)])
         = Ok (VObj (obj_set fs k (VArr l'))) ∧
         l' `sublist_of` l ∧
         ∀ e, e ∈ l' ↔ e ∈ l ∧ ∀ a, a ∈ args → equal rt e a = false) ∧
  (∀ a, is_object_type a = false →
        _applyModifier rt (VObj fs) "$pullAll" (VObj [(k, VArr [a])])
        = _applyModifier rt (VObj fs) "$pull" (VObj [(k, a)])).
Proof.
  intros Hk Hget. split.
  - exists (List.filter (λ e, negb (existsb (equal rt e) args)) l).
    split; [|split].
    + rewrite (applyModifier_single rt "$pullAll" k (on_target (mod_pullAll rt)))
        by done.
      rewrite (apply_top_level (mod_pullAll rt) "$pullAll" k fs _ Hk eq_refl)
        by eauto.
      unfold mod_pullAll. simpl. by rewrite Hget.
    + clear Hget. induction l as [|x l' IH]; simpl; [done|].
      destruct (negb _); by constructor.
    + intros e. rewrite list_elem_of_In, filter_In, negb_true_iff, <- list_elem_of_In.
      split; intros [He Hno]; (split; [done|]).
      * intros a Ha. destruct (equal rt e a) eqn:Hea; [|done].
        rewrite <- Hno. symmetry. apply existsb_exists. exists a.
        split; [by apply list_elem_of_In|done].
      * destruct (existsb (equal rt e) args) eqn:Hex; [|done].
        apply existsb_exists in Hex as (a & Ha & Hea).
        rewrite <- Hea. apply Hno. by apply list_elem_of_In.
  - intros a Ha.
    rewrite (applyModifier_single rt "$pullAll" k (on_target (mod_pullAll rt)))
      by done.
    rewrite (apply_top_level (mod_pullAll rt) "$pullAll" k fs _ Hk eq_refl)
      by eauto.
    rewrite (applyModifier_single rt "$pull" k (on_target (mod_pull rt))) by done.
    rewrite (apply_top_level (mod_pull rt) "$pull" k fs _ Hk eq_refl) by eauto.
    unfold mod_pullAll, mod_pull. simpl. rewrite Hget. simpl. rewrite Ha. simpl.
    assert (Hsame : List.filter (λ e, negb (equal rt e a || false)) l
                    = List.filter (λ e, negb (equal rt e a)) l).
    { clear Hget. induction l as [|x l' IH]; simpl; [done|].
      rewrite orb_false_r. simpl in IH. by rewrite IH. }
    by rewrite Hsame.
Qed.

End SetModifiers.

Lemma addToSet_each_extends_witness :
  ∃ added,
    _applyModifier demo_rt (VObj [("tags", VArr [VNum 1; VNum 2])]) "$addToSet"
      (VObj [("tags", VObj [("$each", VArr [VNum 2; VNum 3])])])
    = Ok (VObj [("tags", VArr ([VNum 1; VNum 2] ++ added))]).
Proof.
  destruct (addToSet_each_extends demo_rt "tags" [VNum 2; VNum 3] [VNum 1; VNum 2]
              [("tags", VArr [VNum 1; VNum 2])] eq_refl eq_refl)
    as (added & Heq & _).
  exists added. exact Heq.
Defined.

Lemma pullAll_keeps_the_rest_witness :
  _applyModifier demo_rt (VObj [("tags", VArr [VNum 1; VNum 2; VNum 1])]) "$pullAll"
    (VObj [("tags", VArr [VNum 1])])
  = _applyModifier demo_rt (VObj [("tags", VArr [VNum 1; VNum 2; VNum 1])]) "$pull"
      (VObj [("tags", VNum 1)]).
Proof.
  destruct (pullAll_keeps_the_rest demo_rt "tags" [VNum 1] [VNum 1; VNum 2; VNum 1]
              [("tags", VArr [VNum 1; VNum 2; VNum 1])] eq_refl eq_refl)
    as [_ Hpull].
  apply Hpull. reflexivity.
Defined.

(** ** [Collection.prototype.rename] and [addStore] *)

(** X29. Renaming a collection keeps its documents and its database,
    and gives it the new name and the full name that goes with it; no
    collection gets a name [checkCollectionName] refuses; renaming back
    gives the collection as it was. *)
Theorem rename_and_back (c c' : CollectionObject) (n : string) :
  fullName c = dbName c +:+ "." +:+ name c →
  checkCollectionName (VStr (name c)) = Ok () →
  rename c (VStr n) = Ok (Some c') →
  name c' = n ∧ fullName c' = dbName c +:+ "." +:+ n ∧
  dbName c' = dbName c ∧ contents c' = contents c ∧
  checkCollectionName (VStr n) = Ok () ∧
  rename c' (VStr (name c)) = Ok (Some c).
Proof.
  intros Hfull Hname. unfold rename.
  destruct (String.eqb (name c) n) eqn:Hsame; [done|]. cbn [negb].
  unfold_result. destruct (checkCollectionName (VStr n)) as [[]|e] eqn:Hn; [|done].
  intros [= <-]. cbn [name fullName dbName contents].
  repeat (split; [done|]).
  rewrite String.eqb_sym, Hsame. cbn [negb]. rewrite Hname, <- Hfull.
  by destruct c.
Qed.

Lemma rename_and_back_witness :
  rename (mkCollectionObject "db" "people" "db.people" (mkCollection [] ∅))
    (VStr "users")
  = Ok (Some (mkCollectionObject "db" "users" "db.users" (mkCollection [] ∅))).
Proof.
  destruct (rename_and_back
              (mkCollectionObject "db" "users" "db.users" (mkCollection [] ∅))
              (mkCollectionObject "db" "people" "db.people" (mkCollection [] ∅))
              "people" eq_refl eq_refl eq_refl) as (_ & _ & _ & _ & _ & Hback).
  exact Hback.
Defined.

(** X30. A store added with [addStore] is called after the stores that
    were there, which are called as before: by its handler for the event
    when it has one, by [all] otherwise. *)
Theorem addStore_is_called_last (db : MongoPortable) (store : Store)
    (event : string) (names : list string) :
  db_emit (addStore db store) event names
  = db_emit db event names
    ++ db_deliver_to event names (length (db_stores db)) store.
Proof.
  unfold db_emit, addStore. cbn [db_stores].
  rewrite imap_app, concat_app. cbn [imap concat].
  by rewrite app_nil_r, Nat.add_0_r.
Qed.

Lemma push_then_pop_witness :
  ∃ d, _applyModifier demo_rt (VObj [("tags", VArr [VNum 1])]) "$push"
         (VObj [("tags", VNum 2)]) = Ok d ∧
       get_prop d (KStr "tags") = Ok (VArr ([VNum 1] ++ [VNum 2])) ∧
       _applyModifier demo_rt d "$pop" (VObj [("tags", VNum 1)])
       = Ok (VObj [("tags", VArr [VNum 1])]).
Proof.
  apply (push_then_pop demo_rt "tags" (VNum 2) 1 [VNum 1]
           [("tags", VArr [VNum 1])]); [reflexivity | reflexivity | lia].
Defined.

Lemma pushAll_as_pushes_witness :
  _applyModifier demo_rt (VObj [("tags", VArr [VNum 1])]) "$pushAll"
    (VObj [("tags", VArr [VNum 2; VNum 3])])
  = Ok (VObj [("tags", VArr [VNum 1; VNum 2; VNum 3])]).
Proof.
  apply (pushAll_as_pushes demo_rt "tags" [VNum 2; VNum 3] [VNum 1]
           [("tags", VArr [VNum 1])]); reflexivity.
Defined.

Lemma pull_keeps_the_rest_witness :
  ∃ l', _applyModifier demo_rt (VObj [("tags", VArr [VNum 1; VNum 2; VNum 1])])
          "$pull" (VObj [("tags", VNum 1)])
        = Ok (VObj [("tags", VArr l')]) ∧
        l' `sublist_of` [VNum 1; VNum 2; VNum 1].
Proof.
  destruct (pull_keeps_the_rest demo_rt "tags" (VNum 1) [VNum 1; VNum 2; VNum 1]
              [("tags", VArr [VNum 1; VNum 2; VNum 1])] eq_refl eq_refl)
    as [Hplain _].
  destruct (Hplain eq_refl) as (l' & Heq & Hsub & _).
  exists l'. split; [exact Heq | exact Hsub].
Defined.

Lemma update_without_match_witness :
  run (update demo_rt (VObj [("a", VNum 1)]) (VObj [("$set", VObj [("a", VNum 2)])])
         strict_options) empty_world
  = (queried demo_rt empty_world strict_options,
     Ok (mkUpdateResult None 0 None 0)).
Proof.
  apply (update_without_match demo_rt (VObj [("a", VNum 1)])
           (VObj [("$set", VObj [("a", VNum 2)])]) strict_options empty_world
           (λ doc, forallb (literal_clause doc) [("a", VNum 1)]));
    reflexivity.
Defined.

Lemma strict_multi_replacement_rejected_witness :
  let w1 := (run (insert demo_rt (VObj [("a", VNum 1)])) empty_world).1 in
  let options := mkUpdateOptions true false true false in
  run (update demo_rt (VObj [("a", VNum 1)]) (VObj [("a", VNum 2)]) options) w1
  = (queried demo_rt w1 options,
     Throw (Err "You can not update several documents when no update operators are included")).
Proof.
  intros w1 options.
  apply (strict_multi_replacement_rejected demo_rt (VObj [("a", VNum 1)])
           "a" (VNum 2) [] options w1
           (λ doc, forallb (literal_clause doc) [("a", VNum 1)]));
    [reflexivity | reflexivity | reflexivity | reflexivity | discriminate].
Defined.

Lemma update_keeps_index_map_witness :
  let w1 := (run (insert demo_rt (VObj [("a", VNum 1)])) empty_world).1 in
  doc_indexes
    (coll (run (update demo_rt (VObj [("a", VNum 1)])
                  (VObj [("$set", VObj [("a", VNum 2)])]) strict_options) w1).1)
  = doc_indexes (coll w1).
Proof.
  intros w1.
  apply (update_keeps_index_map demo_rt (VObj [("a", VNum 1)])
           (VObj [("$set", VObj [("a", VNum 2)])]) strict_options w1).
  reflexivity.
Defined.


Lemma remove_unindexes_witness :
  let w1 := (run (insert demo_rt (VObj [("_id", VStr "7"); ("a", VNum 1)]))
               empty_world).1 in
  doc_indexes (coll (run (remove demo_rt (VObj [("a", VNum 1)])) w1).1) !! "7" = None.
Proof.
  intros w1.
  destruct (remove_unindexes demo_rt (VObj [("a", VNum 1)]) w1) as [_ Hgone].
  apply (Hgone [VObj [("_id", VStr "7"); ("a", VNum 1); ("timestamp", VNum 1500000000)]]
           (VObj [("_id", VStr "7"); ("a", VNum 1); ("timestamp", VNum 1500000000)])
           (VStr "7")); [reflexivity | left | reflexivity].
Defined.

Lemma remove_without_match_witness :
  run (remove demo_rt (VObj [("a", VNum 1)])) empty_world
  = (mkWorld (coll empty_world) (oid_count empty_world)
       ((deliveries empty_world ++ emitted_by demo_rt "find" [] (coll empty_world))
        ++ emitted_by demo_rt "remove" [] (coll empty_world)),
     Ok []).
Proof.
  apply (remove_without_match demo_rt (VObj [("a", VNum 1)]) empty_world
           (λ doc, forallb (literal_clause doc) [("a", VNum 1)]));
    reflexivity.
Defined.

Lemma emit_reaches_handlers_witness :
  mkDelivery 1 "all" (mkEvent "find" (mkCollection [] ∅) [])
  ∈ emitted_by demo_rt "find" [] (mkCollection [] ∅).
Proof.
  apply (emit_reaches_handlers demo_rt "find" [] (mkCollection [] ∅)).
  exists (mkStore [] true). split; [reflexivity|]. split; [reflexivity|].
  right. split; [apply not_elem_of_nil|]. split; reflexivity.
Defined.


Lemma registry_kept_witness :
  registry_inv (db_after (collection (mkMongoPortable "db" [] []) (VStr "users"))).
Proof.
  destruct (registry_kept (mkMongoPortable "db" [] []) (VStr "users"))
    as (Hnew & Hcoll & _).
  apply Hcoll. apply (Hnew ∅ (VStr "db") (counter_ObjectId 0)
                        (<["db" := counter_ObjectId 0]> ∅)).
  reflexivity.
Defined.


